(** * bsky_app_daemon: the Bluesky-to-Ably event bridge

    A shallow embedding of [src/bsky_app_daemon.py].  The two SDKs the
    daemon calls (the Bluesky client and the Ably channel) are external:
    their answers are given by a [world].  Everything the daemon does to
    the outside (logging in, logging a record, calling [publish]) is
    recorded, in the order it happens, in a trace of [effect]s, and so
    is an exception that leaves a coroutine with nothing to catch it. *)

From stdpp Require Import base option list strings gmap.

Set Warnings "-register-all".

(** ** Python values, exceptions and results *)

(** An instance of Python's [Exception]: the class caught by the
    [except Exception as e] clauses of the daemon.  [exn_msg] is what
    [str(e)] gives, which is what the f-strings of the log records
    interpolate. *)
Record exn := Exn { exn_class : string; exn_msg : string }.

(** An exception that is not an instance of [Exception]: an
    [asyncio.CancelledError], a [KeyboardInterrupt], a [SystemExit], a
    [GeneratorExit].  No [except Exception] clause catches it.
    [base_status] is the exit status of the interpreter when this
    exception ends the program (1 for [asyncio.CancelledError], the code
    of a [SystemExit]). *)
Record base_exn := BaseExn { base_class : string; base_status : nat }.

(** The values that flow through the daemon: [None], strings, and SDK
    objects with a class name and attributes. *)
Inductive pyval :=
  | PyNone
  | PyStr (s : string)
  | PyObj (cls : string) (attrs : list (string * pyval)).

(** A Python dict display, in insertion order. *)
Definition dict := list (string * pyval).

(** How a piece of code ends: with a value, with an [Exception], or
    with an exception that is not an [Exception]. *)
Inductive result (A : Type) :=
  | Ok (a : A)
  | Raise (e : exn)
  | Escape (b : base_exn).
Arguments Ok {A} a.
Arguments Raise {A} e.
Arguments Escape {A} b.

Definition rbind {A B} (r : result A) (k : A -> result B) : result B :=
  match r with
  | Ok a => k a
  | Raise e => Raise e
  | Escape b => Escape b
  end.

Notation "'get' x <- c ; k" := (rbind c (fun x => k))
  (at level 10, x name, c at level 100, k at level 200).

Fixpoint assoc (k : string) (l : list (string * pyval)) : option pyval :=
  match l with
  | [] => None
  | (k', v) :: l' => if String.eqb k k' then Some v else assoc k l'
  end.

Definition type_name (o : pyval) : string :=
  match o with
  | PyNone => "NoneType"
  | PyStr _ => "str"
  | PyObj cls _ => cls
  end.

Definition AttributeError (o : pyval) (name : string) : exn :=
  Exn "AttributeError"
      ("'" +:+ type_name o +:+ "' object has no attribute '" +:+ name +:+ "'").

(** [o.name].  None of the attribute names the daemon reads (author, did,
    cid, record, text, created_at, reason) exists on [None] or on a [str],
    so reading them there raises. *)
Definition getattr (o : pyval) (name : string) : result pyval :=
  match o with
  | PyObj _ attrs =>
      match assoc name attrs with
      | Some v => Ok v
      | None => Raise (AttributeError o name)
      end
  | _ => Raise (AttributeError o name)
  end.

(** ** Credentials: [__init__], lines 24 to 29 *)

(** Python truthiness of an optional string argument: [None] and the
    empty string are falsy. *)
Definition truthy (a : option string) : bool :=
  match a with
  | None => false
  | Some s => negb (String.eqb s "")
  end.

(** [a or b] *)
Definition py_or (a b : option string) : option string :=
  if truthy a then a else b.

(** [load_dotenv()]: the variables of the .env file are added to the
    process environment; a variable that is already set keeps its value. *)
Definition load_dotenv (environ dotenv : gmap string string) : gmap string string :=
  environ ∪ dotenv.

(** [os.getenv(name)] *)
Definition getenv (environ : gmap string string) (name : string) : option string :=
  environ !! name.

Record daemon := Daemon {
  bsky_username : option string;
  bsky_password : option string;
  ably_api_key : option string;
  channel_name : string
}.

(** ** Reshaping a raw event: the dict displays of lines 59-65 and 78-83 *)

Definition post_event_data (post : pyval) : result dict :=
  get author <- getattr post "author";
  get did <- getattr author "did";
  get cid <- getattr post "cid";
  get record <- getattr post "record";
  get text <- getattr record "text";
  get record' <- getattr post "record";
  get created_at <- getattr record' "created_at";
  Ok [("type", PyStr "post"); ("did", did); ("cid", cid);
      ("text", text); ("timestamp", created_at)].

Definition notification_event_data (notification : pyval) : result dict :=
  get reason <- getattr notification "reason";
  get author <- getattr notification "author";
  get did <- getattr author "did";
  get record <- getattr notification "record";
  Ok [("type", PyStr "notification"); ("reason", reason);
      ("author", did); ("record", record)].

(** [post.author.did], as the f-strings of lines 69 and 87 read it again. *)
Definition author_did (o : pyval) : result pyval :=
  get author <- getattr o "author";
  getattr author "did".

(** ** Effects and the world *)

Inductive level := INFO | ERROR.

(** What the daemon does to the outside, and [Uncaught b]: the
    exception [b] leaves one of the two stream coroutines with no handler
    to catch it, on its way out of [gather], [run] and [main]. *)
Inductive effect :=
  | Login (user password : option string)
  | Log (lv : level) (msg : string)
  | Publish (name : string) (data : dict)
  | Uncaught (b : base_exn).

(** One step of an async iterator: [__anext__] yields a value, raises an
    [Exception], or raises an exception that is not an [Exception] (an
    [asyncio.CancelledError] at the await, say).  A stream is the list of
    what its successive [__anext__] calls give; at the end of the list
    the iterator is exhausted. *)
Inductive item :=
  | Yield (v : pyval)
  | Throw (e : exn)
  | Abort (b : base_exn).

(** [StopAsyncIteration] is how [__anext__] says that the iterator is
    exhausted: an [async for] ends on it and raises nothing. *)
Definition is_stop (e : exn) : bool :=
  String.eqb (exn_class e) "StopAsyncIteration".

Record world := World {
  (** [Ably.Rest(key=...)] may refuse its key *)
  ably_rest : option string -> option exn;
  (** [bsky_client.login(user, password)] *)
  login : option string -> option string -> option exn;
  (** [bsky_client.stream.search_posts()] *)
  search_posts : list item;
  (** [bsky_client.stream.notifications()] *)
  notifications : list item;
  (** [channel.publish(name, data)], given everything that happened before *)
  publish : list effect -> string -> dict -> option exn;
  (** [str(o)] for an SDK object [o]: what its class's [__str__] gives, or
      the default text with the class and the address of the object *)
  object_str : pyval -> string
}.

(** [str(v)], as an f-string interpolates [v]. *)
Definition py_str (w : world) (v : pyval) : string :=
  match v with
  | PyNone => "None"
  | PyStr s => s
  | PyObj _ _ => object_str w v
  end.

(** The exceptions that left a coroutine uncaught, in order. *)
Definition uncaught (t : list effect) : list base_exn :=
  omap (fun e => match e with Uncaught b => Some b | _ => None end) t.

(** ** The monad of the daemon's code: a trace of effects, and exceptions *)

Definition io (A : Type) : Type := list effect -> result A * list effect.

Definition ret {A} (a : A) : io A := fun t => (Ok a, t).

Definition raise {A} (e : exn) : io A := fun t => (Raise e, t).

Definition escape {A} (b : base_exn) : io A := fun t => (Escape b, t).

Definition bind {A B} (m : io A) (k : A -> io B) : io B :=
  fun t =>
    match m t with
    | (Ok a, t') => k a t'
    | (Raise e, t') => (Raise e, t')
    | (Escape b, t') => (Escape b, t')
    end.

(** [try: m except Exception as e: h e].  The clause catches the
    instances of [Exception] and nothing else. *)
Definition try_except {A} (m : io A) (h : exn -> io A) : io A :=
  fun t =>
    match m t with
    | (Ok a, t') => (Ok a, t')
    | (Raise e, t') => h e t'
    | (Escape b, t') => (Escape b, t')
    end.

Definition lift {A} (r : result A) : io A := fun t => (r, t).

Definition emit (e : effect) : io unit := fun t => (Ok tt, t ++ [e]).

Notation "'do' x <- c ; k" := (bind c (fun x => k))
  (at level 10, x name, c at level 100, k at level 200).

Definition logger_info (msg : string) : io unit := emit (Log INFO msg).
Definition logger_error (msg : string) : io unit := emit (Log ERROR msg).

Section Daemon.

Variable w : world.

(** [BskyXRPCDaemon.__init__] *)
Definition __init__ (username password api_key : option string) (channel : string)
    (environ dotenv : gmap string string) : result daemon :=
  let environ' := load_dotenv environ dotenv in
  let bsky_username := py_or username (getenv environ' "BSKY_USERNAME") in
  let bsky_password := py_or password (getenv environ' "BSKY_PASSWORD") in
  let ably_api_key := py_or api_key (getenv environ' "ABLY_API_KEY") in
  match ably_rest w ably_api_key with
  | Some e => Raise e
  | None => Ok (Daemon bsky_username bsky_password ably_api_key channel)
  end.

(** [self.bsky_client.login(...)] *)
Definition bsky_client_login (user password : option string) : io unit :=
  fun t =>
    (match login w user password with
     | None => Ok tt
     | Some e => Raise e
     end, t ++ [Login user password]).

(** [self.channel.publish(name, data)]: the call is recorded whether or not
    the channel accepts it. *)
Definition channel_publish (name : string) (data : dict) : io unit :=
  fun t =>
    (match publish w t name data with
     | None => Ok tt
     | Some e => Raise e
     end, t ++ [Publish name data]).

(** [BskyXRPCDaemon.authenticate] *)
Definition authenticate (d : daemon) : io unit :=
  try_except
    (do _ <- bsky_client_login (bsky_username d) (bsky_password d);
     logger_info "Successfully authenticated with Bluesky")
    (fun e =>
       do _ <- logger_error ("Authentication failed: " +:+ exn_msg e);
       raise e).

(** ** The two stream loops *)

(** A stream coroutine between two of its suspension points: whether its
    loop has ended, and what its async iterator still has to give. *)
Record task := Task { finished : bool; iterator : list item }.

(** [await iterator.__anext__()], as the [async for] statement calls it:
    [None] when the call raises [StopAsyncIteration], on which the
    statement ends the loop. *)
Definition anext (it : item) : io (option pyval) :=
  match it with
  | Yield v => ret (Some v)
  | Throw e => if is_stop e then ret None else raise e
  | Abort b => escape b
  end.

(** The loop body of [stream_posts], lines 59 to 69. *)
Definition stream_posts_body (post : pyval) : io unit :=
  do event_data <- lift (post_event_data post);
  do _ <- channel_publish "new_post" event_data;
  do did <- lift (author_did post);
  logger_info ("Published post from " +:+ py_str w did).

(** The loop body of [stream_notifications], lines 78 to 87. *)
Definition stream_notifications_body (notification : pyval) : io unit :=
  do event_data <- lift (notification_event_data notification);
  do _ <- channel_publish "notification" event_data;
  do did <- lift (author_did notification);
  logger_info ("Published notification for " +:+ py_str w did).

(** [BskyXRPCDaemon.stream_posts], from one suspension point of its
    [async for] to the next.  The [try] encloses the whole loop: an
    [Exception] raised by the iterator or by the body ends the loop in the
    [except] clause; an exception that is not an [Exception] passes
    through it.  An exhausted iterator ends the loop with no record. *)
Definition stream_posts (t : task) : io task :=
  if finished t then ret t
  else
    match iterator t with
    | [] => ret (Task true [])
    | it :: rest =>
        try_except
          (do next <- anext it;
           match next with
           | None => ret (Task true rest)
           | Some post =>
               do _ <- stream_posts_body post;
               ret (Task false rest)
           end)
          (fun e =>
             do _ <- logger_error ("Error streaming posts: " +:+ exn_msg e);
             ret (Task true rest))
    end.

(** [BskyXRPCDaemon.stream_notifications], likewise. *)
Definition stream_notifications (t : task) : io task :=
  if finished t then ret t
  else
    match iterator t with
    | [] => ret (Task true [])
    | it :: rest =>
        try_except
          (do next <- anext it;
           match next with
           | None => ret (Task true rest)
           | Some notification =>
               do _ <- stream_notifications_body notification;
               ret (Task false rest)
           end)
          (fun e =>
             do _ <- logger_error ("Error streaming notifications: " +:+ exn_msg e);
             ret (Task true rest))
    end.

(** ** [run] and [main] *)

(** Which coroutine the event loop resumes next. *)
Inductive turn := Posts | Notifs.

(** The event loop resumes a coroutine of [gather].  An exception that
    the coroutine does not catch ends it where it stands, and is on its
    way out: [gather] (called without [return_exceptions]) hands it to
    [run], which hands it to [main]. *)
Definition resumed (step : task -> io task) (t : task) : io task :=
  fun h =>
    match step t h with
    | (Escape b, h') => (Ok (Task true (tail (iterator t))), h' ++ [Uncaught b])
    | r => r
    end.

(** [asyncio.gather(self.stream_posts(), self.stream_notifications())]:
    the event loop resumes the two coroutines in some order, one loop
    iteration at a time (they only suspend in their [async for]).  The
    schedule is the finite part of that order that has been observed; its
    result is the state of the two coroutines at the end of it.  While an
    uncaught exception is on its way out, the event loop may still resume
    the other coroutine, until it shuts down. *)
Fixpoint gather (sched : list turn) (p n : task) : io (task * task) :=
  match sched with
  | [] => ret (p, n)
  | Posts :: sched' => do p' <- resumed stream_posts p; gather sched' p' n
  | Notifs :: sched' => do n' <- resumed stream_notifications n; gather sched' p n'
  end.

(** [BskyXRPCDaemon.run] *)
Definition run (d : daemon) (sched : list turn) : io (task * task) :=
  do _ <- authenticate d;
  gather sched (Task false (search_posts w)) (Task false (notifications w)).

(** What has become of the process: an [Exception] that leaves
    [asyncio.run(main())] ends the interpreter with status 1, an
    exception that is not an [Exception] with its own status; when both
    coroutines have returned, [main] returns and the status is 0; otherwise
    the daemon is still streaming. *)
Inductive status := Exited (code : nat) | Streaming.

(** [main], under [asyncio.run]: the daemon is built with no argument.
    The first exception that left a coroutine uncaught is the one that
    [gather] raises, and that ends the process. *)
Definition main (environ dotenv : gmap string string) (sched : list turn)
    : status * list effect :=
  match __init__ None None None "bsky-events" environ dotenv with
  | Raise e => (Exited 1, [])
  | Escape b => (Exited (base_status b), [])
  | Ok d =>
      match run d sched [] with
      | (Raise e, t) => (Exited 1, t)
      | (Escape b, t) => (Exited (base_status b), t)
      | (Ok (p, n), t) =>
          (match uncaught t with
           | b :: _ => Exited (base_status b)
           | [] => if finished p && finished n then Exited 0 else Streaming
           end, t)
      end
  end.

End Daemon.

(** ** Reading a trace *)

(** The payloads of the [publish] calls made under event name [name]. *)
Definition calls (name : string) (t : list effect) : list dict :=
  omap (fun e => match e with
                 | Publish n d => if String.eqb n name then Some d else None
                 | _ => None
                 end) t.

(** Every [publish] call, with its event name. *)
Definition published (t : list effect) : list (string * dict) :=
  omap (fun e => match e with Publish n d => Some (n, d) | _ => None end) t.

(** The messages logged at level ERROR. *)
Definition errors (t : list effect) : list string :=
  omap (fun e => match e with Log ERROR m => Some m | _ => None end) t.

(** The events a stream has handed over ([Yield]s), as opposed to its
    failures. *)
Definition yields (its : list item) : nat :=
  length (omap (fun it => match it with Yield v => Some v | _ => None end) its).

(** ** The two loops as instances of one

    [stream_posts] and [stream_notifications] are the same loop up to the
    dict they build, the event name and the two log messages. *)

Record loop := Loop {
  reshape : pyval -> result dict;
  event_name : string;
  info_prefix : string;
  error_prefix : string
}.

Definition posts_loop : loop :=
  Loop post_event_data "new_post" "Published post from " "Error streaming posts: ".

Definition notifications_loop : loop :=
  Loop notification_event_data "notification" "Published notification for "
       "Error streaming notifications: ".

(** The payloads of the events of a stream segment that reshape without
    raising, in order. *)
Definition reshaped (L : loop) (its : list item) : list dict :=
  omap (fun it => match it with
                  | Yield v => match reshape L v with Ok d => Some d | _ => None end
                  | _ => None
                  end) its.

Section Loops.

Variable w : world.

Definition loop_body (L : loop) (v : pyval) : io unit :=
  do event_data <- lift (reshape L v);
  do _ <- channel_publish w (event_name L) event_data;
  do did <- lift (author_did v);
  logger_info (info_prefix L +:+ py_str w did).

(** What is inside the [try] for one iteration. *)
Definition try_block (L : loop) (it : item) (rest : list item) : io task :=
  do next <- anext it;
  match next with
  | None => ret (Task true rest)
  | Some v =>
      do _ <- loop_body L v;
      ret (Task false rest)
  end.

Definition stream_loop (L : loop) (t : task) : io task :=
  if finished t then ret t
  else
    match iterator t with
    | [] => ret (Task true [])
    | it :: rest =>
        try_except (try_block L it rest)
          (fun e =>
             do _ <- logger_error (error_prefix L +:+ exn_msg e);
             ret (Task true rest))
    end.

(** [gather] over any two loops; the first is resumed on [Posts]. *)
Fixpoint gather_with (L1 L2 : loop) (sched : list turn) (t1 t2 : task)
    : io (task * task) :=
  match sched with
  | [] => ret (t1, t2)
  | Posts :: sched' =>
      do t1' <- resumed (stream_loop L1) t1; gather_with L1 L2 sched' t1' t2
  | Notifs :: sched' =>
      do t2' <- resumed (stream_loop L2) t2; gather_with L1 L2 sched' t1 t2'
  end.

(** One resumption of a loop by the event loop, as a function of the
    history: the task it leaves and the effects it adds. *)
Definition loop_step (L : loop) (h : list effect) (t : task) : task * list effect :=
  if finished t then (t, [])
  else
    match iterator t with
    | [] => (Task true [], [])
    | Abort b :: rest => (Task true rest, [Uncaught b])
    | Throw e :: rest =>
        if is_stop e then (Task true rest, [])
        else (Task true rest, [Log ERROR (error_prefix L +:+ exn_msg e)])
    | Yield v :: rest =>
        match reshape L v with
        | Raise e => (Task true rest, [Log ERROR (error_prefix L +:+ exn_msg e)])
        | Escape b => (Task true rest, [Uncaught b])
        | Ok d =>
            match publish w h (event_name L) d with
            | Some e =>
                (Task true rest,
                 [Publish (event_name L) d; Log ERROR (error_prefix L +:+ exn_msg e)])
            | None =>
                match author_did v with
                | Ok did =>
                    (Task false rest,
                     [Publish (event_name L) d; Log INFO (info_prefix L +:+ py_str w did)])
                | Raise e =>
                    (Task true rest,
                     [Publish (event_name L) d; Log ERROR (error_prefix L +:+ exn_msg e)])
                | Escape b =>
                    (Task true rest, [Publish (event_name L) d; Uncaught b])
                end
            end
        end
    end.

End Loops.

Definition swap_turn (x : turn) : turn :=
  match x with Posts => Notifs | Notifs => Posts end.

Definition same_turn (x y : turn) : bool :=
  match x, y with
  | Posts, Posts | Notifs, Notifs => true
  | _, _ => false
  end.

(** How many times a schedule resumes coroutine [x]. *)
Fixpoint turns (x : turn) (sched : list turn) : nat :=
  match sched with
  | [] => 0
  | y :: sched' => (if same_turn x y then 1 else 0) + turns x sched'
  end.

(** ** Concrete events and worlds *)

Definition mk_post (did cid text created_at : string) : pyval :=
  PyObj "PostView"
    [("author", PyObj "ProfileViewBasic" [("did", PyStr did)]);
     ("cid", PyStr cid);
     ("record", PyObj "Record" [("text", PyStr text); ("created_at", PyStr created_at)])].

Definition mk_notification (reason did : string) (record : pyval) : pyval :=
  PyObj "Notification"
    [("reason", PyStr reason);
     ("author", PyObj "ProfileView" [("did", PyStr did)]);
     ("record", record)].

(** A post whose author is missing: [post.author.did] raises. *)
Definition malformed_post : pyval :=
  PyObj "PostView"
    [("author", PyNone);
     ("cid", PyStr "3");
     ("record", PyObj "Record" [("text", PyStr "three"); ("created_at", PyStr "t3")])].

Definition post1 : pyval := mk_post "did:plc:alice" "1" "one" "t1".
Definition post2 : pyval := mk_post "did:plc:alice" "2" "two" "t2".
Definition post4 : pyval := mk_post "did:plc:alice" "4" "four" "t4".

Definition post_data (did cid text created_at : string) : dict :=
  [("type", PyStr "post"); ("did", PyStr did); ("cid", PyStr cid);
   ("text", PyStr text); ("timestamp", PyStr created_at)].

Definition data1 : dict := post_data "did:plc:alice" "1" "one" "t1".
Definition data2 : dict := post_data "did:plc:alice" "2" "two" "t2".
Definition data4 : dict := post_data "did:plc:alice" "4" "four" "t4".

Definition notification1 : pyval := mk_notification "like" "did:plc:bob" PyNone.

Definition notification_data1 : dict :=
  [("type", PyStr "notification"); ("reason", PyStr "like");
   ("author", PyStr "did:plc:bob"); ("record", PyNone)].

(** The scenario of the specification: seq 1, seq 2, a malformed event,
    seq 4. *)
Definition scenario : list item :=
  [Yield post1; Yield post2; Yield malformed_post; Yield post4].

(** SDK objects whose [__str__] gives their class name in brackets. *)
Definition plain_str (o : pyval) : string := "<" +:+ type_name o +:+ ">".

(** A world whose SDKs never fail: every key and login is accepted and
    every [publish] goes through. *)
Definition calm (posts notifs : list item) : world :=
  World (fun _ => None) (fun _ _ => None) posts notifs (fun _ _ _ => None) plain_str.

(** A world that refuses the login. *)
Definition locked_out (posts notifs : list item) : world :=
  World (fun _ => None) (fun _ _ => Some (Exn "UnauthorizedError" "Invalid identifier or password"))
        posts notifs (fun _ _ _ => None) plain_str.

(** The exception that asyncio raises, at its await, in a task that is
    cancelled. *)
Definition cancelled : base_exn := BaseExn "CancelledError" 1.

(** The daemon [main] builds when the environment sets no credential. *)
Definition bare_daemon : daemon := Daemon None None None "bsky-events".

(** ** Counting lost events

    Two ways to count what a finished run has lost: the events the
    iterators handed over that no [publish] call carried, and the events
    the streams had to offer that no [publish] call carried. *)

Definition unpublished_received (w : world) (p n : task) (t : list effect) : nat :=
  (yields (search_posts w) - yields (iterator p))
  + (yields (notifications w) - yields (iterator n))
  - length (published t).

Definition unpublished_offered (w : world) (t : list effect) : nat :=
  yields (search_posts w) + yields (notifications w) - length (published t).

(** The keys of the canonical record of the specification, to compare the
    published dicts with. *)
Definition CanonicalEvent_keys : list string :=
  ["kind"; "actorId"; "subjectId"; "payload"; "observedAt"].

(** A loop's bookkeeping: the stream splits into the events already
    published (in order), at most the one item that ended the loop, and
    what the iterator still holds. *)
Definition consumed_ok (L : loop) (stream : list item) (t : task) (h : list effect) : Prop :=
  exists raws tail,
    stream = map Yield raws ++ tail ++ iterator t
    /\ map (reshape L) raws = map Ok (calls (event_name L) h)
    /\ reshaped L tail = []
    /\ (finished t = false -> tail = []).

(** The channel's answer to a [publish] under [name] does not depend on
    what else happened (log records, calls under other names). *)
Definition independent_of_others (w : world) (name : string) : Prop :=
  forall h1 h2 d, calls name h1 = calls name h2 -> publish w h1 name d = publish w h2 name d.

(** The channel accepts every [publish] under [name]. *)
Definition accepts (w : world) (name : string) : Prop :=
  forall h d, publish w h name d = None.

(** A loop whose reshaping reads [author.did], so that the log message
    built after the [publish] cannot raise. *)
Definition reads_did (L : loop) : Prop :=
  forall v d, reshape L v = Ok d -> exists did, author_did v = Ok did.

(** The loop, the stream and the coroutine that a turn resumes. *)
Definition loop_of (x : turn) : loop :=
  match x with Posts => posts_loop | Notifs => notifications_loop end.

Definition stream_of (w : world) (x : turn) : list item :=
  match x with Posts => search_posts w | Notifs => notifications w end.

Definition task_of (x : turn) (tasks : task * task) : task :=
  match x with Posts => tasks.1 | Notifs => tasks.2 end.

(** The two coroutines, with the one of turn [x] replaced. *)
Definition with_task (x : turn) (t : task) (tasks : task * task) : task * task :=
  match x with Posts => (t, tasks.2) | Notifs => (tasks.1, t) end.

(** A stream whose iterator raises nothing but instances of
    [Exception]. *)
Definition no_abort (its : list item) : Prop :=
  Forall (fun it => forall b, it <> Abort b) its.

(** One resumption of the coroutine of turn [x]. *)
Definition resume (w : world) (x : turn) : task -> io task :=
  match x with Posts => stream_posts w | Notifs => stream_notifications w end.

(** The [Exception] that ends a loop on item [it], at history [h]: the
    iterator raises it (and it is not the [StopAsyncIteration] that ends
    the iteration), or reshaping the event does, or [publish] does. *)
Definition ends_loop (w : world) (L : loop) (h : list effect) (it : item) (e : exn) : Prop :=
  match it with
  | Throw e' => e' = e /\ is_stop e = false
  | Yield v =>
      reshape L v = Raise e
      \/ exists d, reshape L v = Ok d /\ publish w h (event_name L) d = Some e
  | Abort _ => False
  end.

(** The credentials of the [login] calls of a trace, in order. *)
Definition logins (t : list effect) : list (option string * option string) :=
  omap (fun e => match e with Login u p => Some (u, p) | _ => None end) t.

(** Whether a coroutine has returned, as a number. *)
Definition ended (t : task) : nat := if finished t then 1 else 0.

(** What the log record that follows a [publish] call says: the INFO
    record names the did that the published dict carries (under "did" for
    a post, under "author" for a notification); the ERROR record is the
    loop's own. *)
Definition record_of_publish (w : world) (name : string) (data : dict) (lv : level)
    (msg : string) : Prop :=
  (name = "new_post"
   /\ ((lv = INFO
        /\ exists did, assoc "did" data = Some did
                       /\ msg = "Published post from " +:+ py_str w did)
       \/ (lv = ERROR /\ exists e, msg = "Error streaming posts: " +:+ exn_msg e)))
  \/ (name = "notification"
      /\ ((lv = INFO
           /\ exists did, assoc "author" data = Some did
                          /\ msg = "Published notification for " +:+ py_str w did)
          \/ (lv = ERROR
              /\ exists e, msg = "Error streaming notifications: " +:+ exn_msg e))).

(** In a trace, every [publish] call is followed at once by a log record
    that [R] accepts. *)
Definition publish_then_log (R : string -> dict -> level -> string -> Prop)
    (t : list effect) : Prop :=
  forall i name data,
    t !! i = Some (Publish name data) ->
    exists lv msg, t !! S i = Some (Log lv msg) /\ R name data lv msg.

(** A world whose channel refuses the events of content id [cid] (too
    large a payload, say) and accepts the rest. *)
Definition refusing (cid : string) (posts notifs : list item) : world :=
  World (fun _ => None) (fun _ _ => None) posts notifs
        (fun _ _ data =>
           match assoc "cid" data with
           | Some (PyStr s) =>
               if String.eqb s cid then Some (Exn "AblyException" "payload rejected")
               else None
           | _ => None
           end) plain_str.

(** * Facts *)

Section LoopFacts.

Variable w : world.

Lemma calls_app name h a : calls name (h ++ a) = calls name h ++ calls name a.
Proof. unfold calls. apply omap_app. Qed.

Lemma published_app h a : published (h ++ a) = published h ++ published a.
Proof. unfold published. apply omap_app. Qed.

Lemma errors_app h a : errors (h ++ a) = errors h ++ errors a.
Proof. unfold errors. apply omap_app. Qed.

Lemma reshaped_app L a b : reshaped L (a ++ b) = reshaped L a ++ reshaped L b.
Proof. unfold reshaped. apply omap_app. Qed.

Lemma stream_posts_loop t : stream_posts w t = stream_loop w posts_loop t.
Proof. reflexivity. Qed.

Lemma stream_notifications_loop t :
  stream_notifications w t = stream_loop w notifications_loop t.
Proof. reflexivity. Qed.

(** Resumed by the event loop, a loop does what [loop_step] says. *)
Lemma stream_loop_step L t h :
  resumed (stream_loop w L) t h
  = (Ok (loop_step w L h t).1, h ++ (loop_step w L h t).2).
Proof.
  unfold resumed, stream_loop, loop_step.
  destruct t as [fin its]; simpl.
  destruct fin; simpl.
  { unfold ret. by rewrite app_nil_r. }
  destruct its as [|[v|e|b] rest]; simpl.
  - unfold ret. by rewrite app_nil_r.
  - unfold try_except, try_block, bind, anext, ret, loop_body, bind, lift,
      channel_publish, logger_info, logger_error, emit.
    destruct (reshape L v) as [d|e|b]; simpl; [|done..].
    destruct (publish w h (event_name L) d) as [e|]; simpl.
    + by rewrite <- app_assoc.
    + destruct (author_did v) as [did|e|b]; simpl; by rewrite <- app_assoc.
  - unfold try_except, try_block, bind, anext, ret, raise, logger_error, emit.
    destruct (is_stop e); simpl; [by rewrite app_nil_r|done].
  - done.
Qed.

(** What the coroutine itself returns, when no exception is left uncaught. *)
Lemma stream_loop_ok L t h :
  uncaught (loop_step w L h t).2 = [] ->
  stream_loop w L t h = (Ok (loop_step w L h t).1, h ++ (loop_step w L h t).2).
Proof.
  unfold stream_loop, loop_step.
  destruct t as [fin its]; simpl.
  destruct fin; simpl.
  { unfold ret. by rewrite app_nil_r. }
  destruct its as [|[v|e|b] rest]; simpl.
  - unfold ret. by rewrite app_nil_r.
  - unfold try_except, try_block, bind, anext, ret, loop_body, bind, lift,
      channel_publish, logger_info, logger_error, emit.
    destruct (reshape L v) as [d|e|b]; simpl; [|done..].
    destruct (publish w h (event_name L) d) as [e|]; simpl.
    + by rewrite <- app_assoc.
    + destruct (author_did v) as [did|e|b]; simpl; [by rewrite <- app_assoc..|done].
  - unfold try_except, try_block, bind, anext, ret, raise, logger_error, emit.
    destruct (is_stop e); simpl; [by rewrite app_nil_r|done].
  - done.
Qed.

Lemma gather_eq sched p n h :
  gather w sched p n h = gather_with w posts_loop notifications_loop sched p n h.
Proof.
  revert p n h. induction sched as [|[] sched IH]; intros p n h; simpl; [done| |].
  - unfold bind.
    change (resumed (stream_posts w) p h) with (resumed (stream_loop w posts_loop) p h).
    rewrite stream_loop_step. apply IH.
  - unfold bind.
    change (resumed (stream_notifications w) n h)
      with (resumed (stream_loop w notifications_loop) n h).
    rewrite stream_loop_step. apply IH.
Qed.

Lemma gather_with_Posts L1 L2 sched t1 t2 h :
  gather_with w L1 L2 (Posts :: sched) t1 t2 h
  = gather_with w L1 L2 sched (loop_step w L1 h t1).1 t2 (h ++ (loop_step w L1 h t1).2).
Proof. simpl. unfold bind. by rewrite stream_loop_step. Qed.

Lemma gather_with_Notifs L1 L2 sched t1 t2 h :
  gather_with w L1 L2 (Notifs :: sched) t1 t2 h
  = gather_with w L1 L2 sched t1 (loop_step w L2 h t2).1 (h ++ (loop_step w L2 h t2).2).
Proof. simpl. unfold bind. by rewrite stream_loop_step. Qed.

(** The state after a schedule: both coroutines swallow what they catch,
    and what they do not catch is recorded. *)
Lemma gather_with_total L1 L2 sched t1 t2 h :
  exists t1' t2' a, gather_with w L1 L2 sched t1 t2 h = (Ok (t1', t2'), h ++ a).
Proof.
  revert t1 t2 h. induction sched as [|[] sched IH]; intros t1 t2 h.
  - exists t1, t2, []. simpl. unfold ret. by rewrite app_nil_r.
  - rewrite gather_with_Posts.
    destruct (IH (loop_step w L1 h t1).1 t2 (h ++ (loop_step w L1 h t1).2))
      as (t1' & t2' & a & ->).
    exists t1', t2', ((loop_step w L1 h t1).2 ++ a). by rewrite app_assoc.
  - rewrite gather_with_Notifs.
    destruct (IH t1 (loop_step w L2 h t2).1 (h ++ (loop_step w L2 h t2).2))
      as (t1' & t2' & a & ->).
    exists t1', t2', ((loop_step w L2 h t2).2 ++ a). by rewrite app_assoc.
Qed.

(** The two coroutines play symmetric parts. *)
Lemma gather_with_swap L1 L2 sched t1 t2 h t1' t2' h' :
  gather_with w L1 L2 sched t1 t2 h = (Ok (t1', t2'), h')
  <-> gather_with w L2 L1 (map swap_turn sched) t2 t1 h = (Ok (t2', t1'), h').
Proof.
  revert t1 t2 h. induction sched as [|[] sched IH]; intros t1 t2 h.
  - simpl. unfold ret. split; intros [= -> -> ->]; done.
  - rewrite gather_with_Posts. simpl map. rewrite gather_with_Notifs. apply IH.
  - rewrite gather_with_Notifs. simpl map. rewrite gather_with_Posts. apply IH.
Qed.

Lemma turns_swap x sched : turns (swap_turn x) (map swap_turn sched) = turns x sched.
Proof.
  induction sched as [|y sched IH]; simpl; [done|].
  rewrite IH. by destruct x, y.
Qed.

End LoopFacts.

Section Bookkeeping.

Variable w : world.

Lemma calls_cons_publish name n d t :
  calls name (Publish n d :: t)
  = if String.eqb n name then d :: calls name t else calls name t.
Proof. unfold calls. simpl. by destruct (String.eqb n name). Qed.

Lemma calls_publish_same name d : calls name [Publish name d] = [d].
Proof. unfold calls. simpl. by rewrite String.eqb_refl. Qed.

Lemma calls_publish_other name name' d :
  name' <> name -> calls name [Publish name' d] = [].
Proof.
  intros Hne. unfold calls. simpl.
  by apply String.eqb_neq in Hne as ->.
Qed.

(** A loop only publishes under its own event name. *)
Lemma loop_step_calls_other L name h t :
  event_name L <> name -> calls name (loop_step w L h t).2 = [].
Proof.
  intros Hne. apply String.eqb_neq in Hne. unfold loop_step.
  destruct t as [[] its]; simpl; [done|].
  destruct its as [|[v|e|b] rest]; simpl; [done| |by destruct (is_stop e)|done].
  destruct (reshape L v) as [d|e|b]; simpl; [|done..].
  destruct (publish w h (event_name L) d) as [e|]; simpl;
    [|destruct (author_did v) as [did|e|b]; simpl];
    unfold calls; simpl; by rewrite Hne.
Qed.

Lemma consumed_ok_start L stream h :
  calls (event_name L) h = [] -> consumed_ok L stream (Task false stream) h.
Proof.
  intros Hh. exists [], []. simpl. by rewrite Hh.
Qed.

Lemma consumed_ok_frame L stream t h a :
  calls (event_name L) a = [] ->
  consumed_ok L stream t h -> consumed_ok L stream t (h ++ a).
Proof.
  intros Ha (raws & tail & Hs & Hc & Ht & Hf).
  exists raws, tail. by rewrite calls_app, Ha, app_nil_r.
Qed.

Lemma consumed_ok_step L stream t h :
  consumed_ok L stream t h ->
  consumed_ok L stream (loop_step w L h t).1 (h ++ (loop_step w L h t).2).
Proof.
  intros (raws & tail & Hs & Hc & Ht & Hf).
  unfold loop_step. destruct t as [fin its]; simpl in *.
  destruct fin; simpl.
  { exists raws, tail. by rewrite !app_nil_r. }
  specialize (Hf eq_refl). subst tail. simpl in Hs.
  assert (Hpub : forall v rest d (t' : task) (x : effect),
            its = Yield v :: rest -> reshape L v = Ok d -> iterator t' = rest ->
            calls (event_name L) [x] = [] ->
            consumed_ok L stream t' (h ++ [Publish (event_name L) d; x])).
  { intros v rest d t' x -> Hv Hit Hx.
    exists (raws ++ [v]), []. repeat split.
    - rewrite Hs, Hit, map_app. simpl. by rewrite <- app_assoc.
    - change [Publish (event_name L) d; x] with ([Publish (event_name L) d] ++ [x]).
      rewrite !calls_app, calls_publish_same, Hx, app_nil_r, !map_app, Hc.
      simpl. by rewrite Hv. }
  destruct its as [|[v|e|b] rest]; simpl.
  - exists raws, []. simpl. by rewrite !app_nil_r in *.
  - destruct (reshape L v) as [d|e|b] eqn:Hv; simpl.
    + destruct (publish w h (event_name L) d) as [e|]; simpl.
      * by apply (Hpub v rest d).
      * destruct (author_did v) as [did|e|b]; simpl; by apply (Hpub v rest d).
    + exists raws, [Yield v]. repeat split; try done.
      * by rewrite calls_app, app_nil_r.
      * unfold reshaped. simpl. by rewrite Hv.
    + exists raws, [Yield v]. repeat split; try done.
      * by rewrite calls_app, app_nil_r.
      * unfold reshaped. simpl. by rewrite Hv.
  - exists raws, [Throw e]. destruct (is_stop e); simpl; repeat split; try done;
      by rewrite calls_app, app_nil_r.
  - exists raws, [Abort b]. repeat split; try done.
    by rewrite calls_app, app_nil_r.
Qed.

(** Both loops keep their books through any schedule. *)
Lemma gather_with_consumed L1 L2 s1 s2 sched t1 t2 h t1' t2' h' :
  event_name L1 <> event_name L2 ->
  consumed_ok L1 s1 t1 h -> consumed_ok L2 s2 t2 h ->
  gather_with w L1 L2 sched t1 t2 h = (Ok (t1', t2'), h') ->
  consumed_ok L1 s1 t1' h' /\ consumed_ok L2 s2 t2' h'.
Proof.
  intros Hne. revert t1 t2 h.
  induction sched as [|[] sched IH]; intros t1 t2 h H1 H2.
  - simpl. unfold ret. by intros [= <- <- <-].
  - rewrite gather_with_Posts. apply IH.
    + by apply consumed_ok_step.
    + apply consumed_ok_frame; [|done]. by apply loop_step_calls_other.
  - rewrite gather_with_Notifs. apply IH.
    + apply consumed_ok_frame; [|done]. by apply loop_step_calls_other.
    + by apply consumed_ok_step.
Qed.

(** What the books say: the calls are the reshaped events of what the
    iterator has given so far. *)
Lemma consumed_ok_reshaped L stream t h :
  consumed_ok L stream t h ->
  exists consumed,
    stream = consumed ++ iterator t
    /\ calls (event_name L) h = reshaped L consumed.
Proof.
  intros (raws & tail & Hs & Hc & Ht & _).
  exists (map Yield raws ++ tail). split; [by rewrite <- app_assoc|].
  rewrite reshaped_app, Ht, app_nil_r.
  clear Hs Ht. revert Hc. generalize (calls (event_name L) h).
  induction raws as [|v raws IH]; intros [|d ds]; simpl; try done.
  intros [= Hv Hrest]. unfold reshaped. simpl. rewrite Hv.
  f_equal. by apply IH.
Qed.

End Bookkeeping.

Section RunFacts.

Variable w : world.

Lemma authenticate_ok d h :
  login w (bsky_username d) (bsky_password d) = None ->
  authenticate w d h
  = (Ok tt, h ++ [Login (bsky_username d) (bsky_password d);
                  Log INFO "Successfully authenticated with Bluesky"]).
Proof.
  intros Hl. unfold authenticate, try_except, bind, bsky_client_login, logger_info, emit.
  rewrite Hl. by rewrite <- app_assoc.
Qed.

Lemma authenticate_fails d h e :
  login w (bsky_username d) (bsky_password d) = Some e ->
  authenticate w d h
  = (Raise e, h ++ [Login (bsky_username d) (bsky_password d);
                    Log ERROR ("Authentication failed: " +:+ exn_msg e)]).
Proof.
  intros Hl.
  unfold authenticate, try_except, bind, bsky_client_login, logger_error, emit, raise.
  rewrite Hl. by rewrite <- app_assoc.
Qed.

Lemma run_ok d sched h :
  login w (bsky_username d) (bsky_password d) = None ->
  run w d sched h
  = gather_with w posts_loop notifications_loop sched
      (Task false (search_posts w)) (Task false (notifications w))
      (h ++ [Login (bsky_username d) (bsky_password d);
             Log INFO "Successfully authenticated with Bluesky"]).
Proof.
  intros Hl. unfold run, bind. rewrite (authenticate_ok _ _ Hl). apply gather_eq.
Qed.

Lemma run_fails d sched h e :
  login w (bsky_username d) (bsky_password d) = Some e ->
  run w d sched h
  = (Raise e, h ++ [Login (bsky_username d) (bsky_password d);
                    Log ERROR ("Authentication failed: " +:+ exn_msg e)]).
Proof.
  intros Hl. unfold run, bind. by rewrite (authenticate_fails _ _ _ Hl).
Qed.

Lemma names_differ : event_name posts_loop <> event_name notifications_loop.
Proof. discriminate. Qed.

(** After any schedule, both loops of a run have kept their books. *)
Lemma run_consumed d sched p n t :
  run w d sched [] = (Ok (p, n), t) ->
  consumed_ok posts_loop (search_posts w) p t
  /\ consumed_ok notifications_loop (notifications w) n t.
Proof.
  destruct (login w (bsky_username d) (bsky_password d)) as [e|] eqn:Hl.
  { by rewrite (run_fails _ _ _ _ Hl). }
  rewrite (run_ok _ _ _ Hl). simpl app.
  apply gather_with_consumed; [apply names_differ| |]; by apply consumed_ok_start.
Qed.

End RunFacts.

(** Reading an attribute raises an [AttributeError] or nothing. *)
Lemma getattr_never_escapes o name b : getattr o name <> Escape b.
Proof. unfold getattr. destruct o; try done. by destruct (assoc name attrs). Qed.

Lemma author_did_never_escapes v b : author_did v <> Escape b.
Proof.
  unfold author_did, rbind.
  destruct (getattr v "author") as [a| |b'] eqn:Ha; [|done|].
  - apply getattr_never_escapes.
  - by apply getattr_never_escapes in Ha.
Qed.

Lemma post_reads_did : reads_did posts_loop.
Proof.
  intros v d. simpl. unfold post_event_data, author_did, rbind.
  destruct (getattr v "author") as [a| |]; [|done..].
  destruct (getattr a "did") as [did| |]; [|done..]. eauto.
Qed.

Lemma notification_reads_did : reads_did notifications_loop.
Proof.
  intros v d. simpl. unfold notification_event_data, author_did, rbind.
  destruct (getattr v "reason") as [r| |]; [|done..].
  destruct (getattr v "author") as [a| |]; [|done..].
  destruct (getattr a "did") as [did| |]; [|done..]. eauto.
Qed.

Section Interleaving.

Variable w : world.
Variables L1 L2 : loop.
Hypothesis Hne : event_name L1 <> event_name L2.

Lemma gather_with_extends sched t1 t2 h t1' t2' h' :
  gather_with w L1 L2 sched t1 t2 h = (Ok (t1', t2'), h') -> exists a, h' = h ++ a.
Proof.
  destruct (gather_with_total w L1 L2 sched t1 t2 h) as (x & y & a & ->).
  intros [= _ _ <-]. by exists a.
Qed.

(** A loop that has ended, or whose iterator is exhausted, publishes
    nothing more, whatever the schedule. *)
Lemma gather_first_idle sched t1 t2 h t1' t2' h' :
  finished t1 = true \/ iterator t1 = [] ->
  gather_with w L1 L2 sched t1 t2 h = (Ok (t1', t2'), h') ->
  calls (event_name L1) h' = calls (event_name L1) h
  /\ (finished t1 = true -> t1' = t1).
Proof.
  revert t1 t2 h. induction sched as [|[] sched IH]; intros t1 t2 h Hidle.
  - simpl. unfold ret. by intros [= <- <- <-].
  - rewrite gather_with_Posts. intros Hg.
    assert (Hstep : (finished t1 = true /\ loop_step w L1 h t1 = (t1, []))
                    \/ (loop_step w L1 h t1 = (Task true [], []))).
    { unfold loop_step. destruct t1 as [[] its]; simpl in *; [by left|].
      destruct Hidle as [?| ->]; [done|by right]. }
    destruct Hstep as [[Hf Hs]|Hs]; rewrite Hs in Hg; simpl in Hg;
      rewrite app_nil_r in Hg.
    + by apply IH in Hg.
    + apply IH in Hg as [Hc Hk]; [|by left]. split; [done|].
      intros Hf. unfold loop_step in Hs. rewrite Hf in Hs.
      injection Hs as ->. by apply Hk.
  - rewrite gather_with_Notifs. intros Hg. apply IH in Hg as [Hc Hk]; [|done].
    split; [|done]. rewrite Hc, calls_app.
    rewrite (loop_step_calls_other w L2); [by rewrite app_nil_r|done].
Qed.

(** While the channel accepts them, the first loop publishes one
    well-formed event per turn, in order, whatever the second loop does
    in between. *)
Lemma gather_first_progress sched pre ds tail t2 h t1' t2' h' :
  accepts w (event_name L1) -> reads_did L1 ->
  Forall2 (fun v d => reshape L1 v = Ok d) pre ds ->
  length pre <= turns Posts sched ->
  gather_with w L1 L2 sched (Task false (map Yield pre ++ tail)) t2 h = (Ok (t1', t2'), h') ->
  exists sched0 t20 h0,
    gather_with w L1 L2 sched0 (Task false tail) t20 h0 = (Ok (t1', t2'), h')
    /\ calls (event_name L1) h0 = calls (event_name L1) h ++ ds
    /\ turns Posts sched0 + length pre = turns Posts sched
    /\ exists a, h0 = h ++ a.
Proof.
  intros Hacc Hdid. revert pre ds t2 h.
  induction sched as [|[] sched IH]; intros pre ds t2 h Hpre Hlen Hg.
  - destruct Hpre; simpl in Hlen; [|lia].
    exists [], t2, h. simpl in *. rewrite !app_nil_r. split_and!; try done.
    exists []. by rewrite app_nil_r.
  - destruct Hpre as [|v d pre ds Hv Hpre].
    { exists (Posts :: sched), t2, h.
      split_and!; [done|by rewrite app_nil_r|simpl; lia|exists []; by rewrite app_nil_r]. }
    rewrite gather_with_Posts in Hg. simpl in Hlen.
    destruct (Hdid v d Hv) as [did Hd].
    assert (Hs : loop_step w L1 h (Task false (map Yield (v :: pre) ++ tail))
                 = (Task false (map Yield pre ++ tail),
                    [Publish (event_name L1) d; Log INFO (info_prefix L1 +:+ py_str w did)])).
    { unfold loop_step. simpl. by rewrite Hv, Hacc, Hd. }
    rewrite Hs in Hg. simpl fst in Hg. simpl snd in Hg.
    apply IH with (ds := ds) in Hg as (sched0 & t20 & h0 & Hg0 & Hc & Ht & a & Ha);
      [|done|lia].
    exists sched0, t20, h0. split_and!; try done.
    + rewrite Hc.
      change [Publish (event_name L1) d; Log INFO (info_prefix L1 +:+ py_str w did)]
        with ([Publish (event_name L1) d] ++ [Log INFO (info_prefix L1 +:+ py_str w did)]).
      rewrite !calls_app, calls_publish_same. simpl. by rewrite <- app_assoc.
    + simpl. lia.
    + eexists. rewrite Ha, <- app_assoc. done.
  - rewrite gather_with_Notifs in Hg. simpl in Hlen.
    apply IH with (ds := ds) in Hg as (sched0 & t20 & h0 & Hg0 & Hc & Ht & a & Ha);
      [|done|done].
    exists sched0, t20, h0. split_and!; try done.
    + rewrite Hc, calls_app, (loop_step_calls_other w L2); [|done].
      by rewrite app_nil_r.
    + eexists. rewrite Ha, <- app_assoc. done.
Qed.

(** When its next resumption ends the first loop without a [publish],
    the loop stays where that left it. *)
Lemma gather_first_stops sched t1 t2 h t1x a t1' t2' h' :
  (forall h, loop_step w L1 h t1 = (t1x, a)) ->
  finished t1x = true -> calls (event_name L1) a = [] ->
  1 <= turns Posts sched ->
  gather_with w L1 L2 sched t1 t2 h = (Ok (t1', t2'), h') ->
  t1' = t1x
  /\ calls (event_name L1) h' = calls (event_name L1) h
  /\ exists h1 h2, h' = h1 ++ a ++ h2.
Proof.
  intros Hs Hf Ha. revert t2 h.
  induction sched as [|[] sched IH]; intros t2 h Hlen Hg; simpl in Hlen; [lia| |].
  - rewrite gather_with_Posts, Hs in Hg. simpl in Hg.
    destruct (gather_with_extends _ _ _ _ _ _ _ Hg) as [b Hb].
    apply gather_first_idle in Hg as [Hc Hk]; [|by left].
    split_and!; [by apply Hk| |].
    + by rewrite Hc, calls_app, Ha, app_nil_r.
    + exists h, b. by rewrite Hb, <- app_assoc.
  - rewrite gather_with_Notifs in Hg.
    apply IH in Hg as (Ht & Hc & Hh); [|done].
    split_and!; try done.
    rewrite Hc, calls_app, (loop_step_calls_other w L2); [|done].
    by rewrite app_nil_r.
Qed.

Lemma loop_step_independent h hx t :
  independent_of_others w (event_name L1) ->
  calls (event_name L1) h = calls (event_name L1) hx ->
  loop_step w L1 h t = loop_step w L1 hx t.
Proof.
  intros Hind Hc. unfold loop_step.
  destruct (finished t); [done|].
  destruct (iterator t) as [|[v|e|b] rest]; try done.
  destruct (reshape L1 v) as [d|e|b]; [|done..].
  by rewrite (Hind h hx d Hc).
Qed.

(** What the first loop does, and what it publishes, does not depend on
    the second loop's stream. *)
Lemma gather_first_unaffected sched t1 t2 h t2x hx t1' t2' h' t1x' t2x' hx' :
  independent_of_others w (event_name L1) ->
  calls (event_name L1) h = calls (event_name L1) hx ->
  gather_with w L1 L2 sched t1 t2 h = (Ok (t1', t2'), h') ->
  gather_with w L1 L2 sched t1 t2x hx = (Ok (t1x', t2x'), hx') ->
  t1' = t1x' /\ calls (event_name L1) h' = calls (event_name L1) hx'.
Proof.
  intros Hind. revert t1 t2 h t2x hx.
  induction sched as [|[] sched IH]; intros t1 t2 h t2x hx Hc.
  - simpl. unfold ret. by intros [= <- <- <-] [= <- <- <-].
  - rewrite !gather_with_Posts, (loop_step_independent h hx t1 Hind Hc).
    apply IH. by rewrite !calls_app, Hc.
  - rewrite !gather_with_Notifs. apply IH.
    rewrite !calls_app, !(loop_step_calls_other w L2); [|done..].
    by rewrite !app_nil_r.
Qed.

End Interleaving.

Section Published.

Variable w : world.

(** The one [publish] a resumption can make carries the reshaped dict of
    the event it received, under the loop's own name. *)
Lemma loop_step_published L h t :
  published (loop_step w L h t).2 = []
  \/ exists v rest d,
       iterator t = Yield v :: rest /\ reshape L v = Ok d
       /\ published (loop_step w L h t).2 = [(event_name L, d)].
Proof.
  unfold loop_step. destruct t as [[] its]; simpl; [by left|].
  destruct its as [|[v|e|b] rest]; simpl;
    [by left| |destruct (is_stop e); by left|by left].
  destruct (reshape L v) as [d|e|b] eqn:Hv; simpl; [|by left..].
  right. exists v, rest, d. split_and!; try done.
  destruct (publish w h (event_name L) d); [done|].
  by destruct (author_did v).
Qed.

Lemma gather_with_published (Q : string * dict -> Prop) L1 L2 sched t1 t2 h t1' t2' h' :
  (forall v d, reshape L1 v = Ok d -> Q (event_name L1, d)) ->
  (forall v d, reshape L2 v = Ok d -> Q (event_name L2, d)) ->
  Forall Q (published h) ->
  gather_with w L1 L2 sched t1 t2 h = (Ok (t1', t2'), h') ->
  Forall Q (published h').
Proof.
  intros H1 H2. revert t1 t2 h.
  induction sched as [|[] sched IH]; intros t1 t2 h Hh.
  - simpl. unfold ret. by intros [= <- <- <-].
  - rewrite gather_with_Posts. apply IH. rewrite published_app. apply Forall_app.
    split; [done|].
    destruct (loop_step_published L1 h t1) as [->|(v & rest & d & _ & Hv & ->)]; [done|].
    repeat constructor. by apply (H1 v).
  - rewrite gather_with_Notifs. apply IH. rewrite published_app. apply Forall_app.
    split; [done|].
    destruct (loop_step_published L2 h t2) as [->|(v & rest & d & _ & Hv & ->)]; [done|].
    repeat constructor. by apply (H2 v).
Qed.

Lemma published_two_names n1 n2 t :
  n1 <> n2 ->
  Forall (fun x => x.1 = n1 \/ x.1 = n2) (published t) ->
  length (published t) = length (calls n1 t) + length (calls n2 t).
Proof.
  intros Hne. induction t as [|e t IH]; [done|].
  destruct e as [u p|lv m|n d|b]; try apply IH.
  change (published (Publish n d :: t)) with ((n, d) :: published t).
  intros HF. apply Forall_cons in HF as [Hn HF]. specialize (IH HF).
  simpl in Hn. rewrite !calls_cons_publish.
  destruct (String.eqb n n1) eqn:E1; destruct (String.eqb n n2) eqn:E2; simpl.
  - apply String.eqb_eq in E1, E2. congruence.
  - lia.
  - lia.
  - apply String.eqb_neq in E1, E2. by destruct Hn.
Qed.

(** Every [publish] of a run is made by one of the two loops, with the
    dict that loop builds. *)
Lemma run_published (Q : string * dict -> Prop) d sched :
  (forall v x, post_event_data v = Ok x -> Q ("new_post", x)) ->
  (forall v x, notification_event_data v = Ok x -> Q ("notification", x)) ->
  Forall Q (published (run w d sched []).2).
Proof.
  intros H1 H2.
  destruct (login w (bsky_username d) (bsky_password d)) as [e|] eqn:Hl.
  { rewrite (run_fails _ _ _ _ _ Hl). simpl. constructor. }
  rewrite (run_ok _ _ _ _ Hl).
  match goal with |- context [gather_with ?w ?a ?b ?s ?x ?y ?h] =>
    destruct (gather_with_total w a b s x y h) as (p & n & a' & Hg) end.
  rewrite Hg. simpl snd.
  apply (gather_with_published Q posts_loop notifications_loop) in Hg;
    [done|apply H1|apply H2|].
  simpl. constructor.
Qed.

End Published.

Section Generic.

Variable w : world.
Variables L1 L2 : loop.
Hypothesis Hne : event_name L1 <> event_name L2.

(** A malformed event ends the first loop: what came before it is
    published, what comes after it is left in the iterator. *)
Lemma gather_first_malformed sched pre ds bad rest e t2 h t1' t2' h' :
  accepts w (event_name L1) -> reads_did L1 ->
  Forall2 (fun v d => reshape L1 v = Ok d) pre ds ->
  reshape L1 bad = Raise e ->
  length pre < turns Posts sched ->
  gather_with w L1 L2 sched (Task false (map Yield pre ++ Yield bad :: rest)) t2 h
  = (Ok (t1', t2'), h') ->
  t1' = Task true rest
  /\ calls (event_name L1) h' = calls (event_name L1) h ++ ds
  /\ Log ERROR (error_prefix L1 +:+ exn_msg e) ∈ h'.
Proof.
  intros Hacc Hdid Hpre Hbad Hlen Hg.
  apply (gather_first_progress w L1 L2 Hne) with (ds := ds) in Hg
    as (sched0 & t20 & h0 & Hg & Hc & Ht & _); [|done|done|done|lia].
  apply (gather_first_stops w L1 L2 Hne) with
    (t1x := Task true rest) (a := [Log ERROR (error_prefix L1 +:+ exn_msg e)]) in Hg
    as (-> & Hc' & h1 & h2 & ->); [| |done|done|lia].
  - split_and!; [done|by rewrite Hc', Hc|]. set_solver.
  - intros hx. unfold loop_step. simpl. by rewrite Hbad.
Qed.

(** With no malformed event and an accepting channel, the first loop
    publishes its whole stream. *)
Lemma gather_first_all sched evs ds t2 h t1' t2' h' :
  accepts w (event_name L1) -> reads_did L1 ->
  Forall2 (fun v d => reshape L1 v = Ok d) evs ds ->
  length evs <= turns Posts sched ->
  gather_with w L1 L2 sched (Task false (map Yield evs)) t2 h = (Ok (t1', t2'), h') ->
  calls (event_name L1) h' = calls (event_name L1) h ++ ds.
Proof.
  intros Hacc Hdid Hevs Hlen Hg.
  rewrite <- (app_nil_r (map Yield evs)) in Hg.
  apply (gather_first_progress w L1 L2 Hne) with (ds := ds) in Hg
    as (sched0 & t20 & h0 & Hg & Hc & Ht & _); [|done..].
  apply (gather_first_idle w L1 L2 Hne) in Hg as [Hc' _]; [|by right].
  by rewrite Hc', Hc.
Qed.

(** While the channel accepts them, the events at the head of the first
    loop's iterator are published, one per turn and in order, whatever
    the second loop does. *)
Lemma gather_first_publishes sched pre ds tail t2 h t1' t2' h' :
  reads_did L1 ->
  Forall2 (fun v d => reshape L1 v = Ok d) pre ds ->
  Forall (fun d => forall h, publish w h (event_name L1) d = None) ds ->
  length pre <= turns Posts sched ->
  gather_with w L1 L2 sched (Task false (map Yield pre ++ tail)) t2 h = (Ok (t1', t2'), h') ->
  exists more, calls (event_name L1) h' = calls (event_name L1) h ++ ds ++ more.
Proof.
  intros Hdid. revert pre ds t2 h.
  induction sched as [|[] sched IH]; intros pre ds t2 h Hpre Hacc Hlen Hg.
  - destruct Hpre; simpl in Hlen; [|lia].
    simpl in Hg. unfold ret in Hg. injection Hg as _ _ <-.
    exists []. by rewrite !app_nil_r.
  - destruct Hpre as [|v d pre ds Hv Hpre].
    { destruct (gather_with_extends w L1 L2 _ _ _ _ _ _ _ Hg) as [a ->].
      exists (calls (event_name L1) a). by rewrite calls_app. }
    rewrite gather_with_Posts in Hg. simpl in Hlen.
    apply Forall_cons in Hacc as [Hd Hacc].
    destruct (Hdid v d Hv) as [did Hdd].
    assert (Hs : loop_step w L1 h (Task false (map Yield (v :: pre) ++ tail))
                 = (Task false (map Yield pre ++ tail),
                    [Publish (event_name L1) d; Log INFO (info_prefix L1 +:+ py_str w did)])).
    { unfold loop_step. simpl. by rewrite Hv, Hd, Hdd. }
    rewrite Hs in Hg. simpl fst in Hg. simpl snd in Hg.
    apply IH with (ds := ds) in Hg as [more Hc]; [|done|done|lia].
    exists more. rewrite Hc.
    change [Publish (event_name L1) d; Log INFO (info_prefix L1 +:+ py_str w did)]
      with ([Publish (event_name L1) d] ++ [Log INFO (info_prefix L1 +:+ py_str w did)]).
    rewrite !calls_app, calls_publish_same. simpl. by rewrite <- !app_assoc.
  - rewrite gather_with_Notifs in Hg. simpl in Hlen.
    apply IH with (ds := ds) in Hg as [more Hc]; [|done..].
    exists more. rewrite Hc, calls_app, (loop_step_calls_other w L2); [|done].
    by rewrite app_nil_r.
Qed.

End Generic.

Lemma resume_loop w x t : resume w x t = stream_loop w (loop_of x) t.
Proof. by destruct x. Qed.

Lemma loop_of_reads_did x : reads_did (loop_of x).
Proof. destruct x; [apply post_reads_did|apply notification_reads_did]. Qed.

(** * The properties of the specification *)

(** C1, as the code has it: the [try] encloses the whole loop, so a
    malformed event ends its stream.  With the login accepted and the
    channel accepting the stream's events, once the loop has been resumed
    past the first malformed event: exactly the events before it have been
    published, in order; the loop has ended, leaving every later event in
    the iterator; and the ERROR record with the exception's text is in the
    log.  This holds for either stream. *)
Theorem malformed_event_ends_its_stream (w : world) (d : daemon) (sched : list turn)
    (x : turn) (pre : list pyval) (ds : list dict) (bad : pyval) (rest : list item)
    (e : exn) :
  login w (bsky_username d) (bsky_password d) = None ->
  accepts w (event_name (loop_of x)) ->
  stream_of w x = map Yield pre ++ Yield bad :: rest ->
  Forall2 (fun v data => reshape (loop_of x) v = Ok data) pre ds ->
  reshape (loop_of x) bad = Raise e ->
  length pre < turns x sched ->
  exists tasks t,
    run w d sched [] = (Ok tasks, t)
    /\ task_of x tasks = Task true rest
    /\ calls (event_name (loop_of x)) t = ds
    /\ Log ERROR (error_prefix (loop_of x) +:+ exn_msg e) ∈ t.
Proof.
  intros Hl Hacc Hs Hpre Hbad Hlen.
  rewrite (run_ok _ _ _ _ Hl).
  match goal with |- context [gather_with ?w ?a ?b ?s ?x ?y ?h] =>
    destruct (gather_with_total w a b s x y h) as (p & n & a' & Hg) end.
  exists (p, n). eexists. split; [exact Hg|].
  destruct x; simpl in *.
  - rewrite Hs in Hg.
    apply (gather_first_malformed w posts_loop notifications_loop names_differ)
      with (ds := ds) (e := e) in Hg as (-> & Hc & He);
      [done|done|apply post_reads_did|done|done|done].
  - apply gather_with_swap in Hg. rewrite Hs in Hg.
    apply (gather_first_malformed w notifications_loop posts_loop)
      with (ds := ds) (e := e) in Hg as (-> & Hc & He);
      [done|discriminate|done|apply notification_reads_did|done|done|].
    by rewrite (turns_swap Notifs).
Qed.

Lemma malformed_event_ends_its_stream_witness :
  exists tasks t,
    run (calm scenario []) bare_daemon [Posts; Posts; Posts; Posts] [] = (Ok tasks, t)
    /\ task_of Posts tasks = Task true [Yield post4]
    /\ calls "new_post" t = [data1; data2]
    /\ Log ERROR ("Error streaming posts: " +:+ exn_msg (AttributeError PyNone "did")) ∈ t.
Proof.
  apply (malformed_event_ends_its_stream (calm scenario []) bare_daemon
           [Posts; Posts; Posts; Posts] Posts [post1; post2] [data1; data2]
           malformed_post [Yield post4] (AttributeError PyNone "did")).
  - reflexivity.
  - intros h data. reflexivity.
  - reflexivity.
  - repeat constructor.
  - reflexivity.
  - simpl. lia.
Defined.

(** C1 as stated fails: on seq 1, seq 2, malformed, seq 4 the channel gets
    two events, not three; seq 4 is never published. *)
Lemma scenario_publishes_two_events :
  main (calm scenario []) ∅ ∅ [Posts; Posts; Posts; Posts; Posts; Notifs]
  = (Exited 0,
     [Login None None;
      Log INFO "Successfully authenticated with Bluesky";
      Publish "new_post" data1;
      Log INFO "Published post from did:plc:alice";
      Publish "new_post" data2;
      Log INFO "Published post from did:plc:alice";
      Log ERROR "Error streaming posts: 'NoneType' object has no attribute 'did'"])
  /\ calls "new_post"
       (main (calm scenario []) ∅ ∅ [Posts; Posts; Posts; Posts; Posts; Notifs]).2
     <> [data1; data2; data4].
Proof. split; [reflexivity|discriminate]. Qed.

(** C2: per-stream FIFO.  After any schedule of any run, the payloads
    published under a stream's event name are, one for one and in the same
    order, the reshaped raw events of a prefix of that stream: the i-th
    [publish] of the stream carries its i-th raw event.  This holds for the
    posts stream and for the notifications stream. *)
Theorem per_stream_fifo (w : world) (d : daemon) (sched : list turn) :
  let t := (run w d sched []).2 in
  (exists raws,
      map Yield raws `prefix_of` search_posts w
      /\ map post_event_data raws = map Ok (calls "new_post" t))
  /\ (exists raws,
      map Yield raws `prefix_of` notifications w
      /\ map notification_event_data raws = map Ok (calls "notification" t)).
Proof.
  simpl.
  destruct (run w d sched []) as [[[p n]|e|b] t] eqn:Hrun; simpl.
  - apply run_consumed in Hrun as [Hp Hn].
    destruct Hp as (rp & tp & Hsp & Hcp & _).
    destruct Hn as (rn & tn & Hsn & Hcn & _).
    split; [exists rp|exists rn]; (split; [|done]); eexists; eassumption.
  - destruct (login w (bsky_username d) (bsky_password d)) as [e'|] eqn:Hl.
    + rewrite (run_fails _ _ _ _ _ Hl) in Hrun. injection Hrun as _ <-.
      split; exists []; split; try done; apply prefix_nil.
    + rewrite (run_ok _ _ _ _ Hl) in Hrun.
      match type of Hrun with gather_with ?w ?a ?b ?s ?x ?y ?h = _ =>
        destruct (gather_with_total w a b s x y h) as (p & n & a' & Hg) end.
      congruence.
  - destruct (login w (bsky_username d) (bsky_password d)) as [e'|] eqn:Hl.
    + by rewrite (run_fails _ _ _ _ _ Hl) in Hrun.
    + rewrite (run_ok _ _ _ _ Hl) in Hrun.
      match type of Hrun with gather_with ?w ?a ?b ?s ?x ?y ?h = _ =>
        destruct (gather_with_total w a b s x y h) as (p & n & a' & Hg) end.
      congruence.
Qed.

(** C3: a failed login is fatal.  When the login raises, the trace of
    [main] is the login call followed by the ERROR record
    "Authentication failed: ..." with the exception's text, and the
    process ends with status 1, whatever the schedule. *)
Theorem authentication_failure_is_fatal (w : world) (environ dotenv : gmap string string)
    (sched : list turn) (d : daemon) (e : exn) :
  __init__ w None None None "bsky-events" environ dotenv = Ok d ->
  login w (bsky_username d) (bsky_password d) = Some e ->
  main w environ dotenv sched
  = (Exited 1,
     [Login (bsky_username d) (bsky_password d);
      Log ERROR ("Authentication failed: " +:+ exn_msg e)]).
Proof.
  intros Hinit Hl. unfold main. rewrite Hinit.
  by rewrite (run_fails _ _ _ _ _ Hl).
Qed.

Lemma authentication_failure_is_fatal_witness :
  main (locked_out [Yield post1] [Yield notification1]) ∅ ∅ [Posts; Notifs]
  = (Exited 1,
     [Login None None;
      Log ERROR "Authentication failed: Invalid identifier or password"]).
Proof.
  apply (authentication_failure_is_fatal
           (locked_out [Yield post1] [Yield notification1]) ∅ ∅ [Posts; Notifs]
           bare_daemon (Exn "UnauthorizedError" "Invalid identifier or password"));
    reflexivity.
Defined.

(** C4, as the code has it: failures are logged, not counted.  When a
    resumption of either loop meets an [Exception] (raised by the
    iterator, other than the [StopAsyncIteration] that ends the iteration;
    by the reshaping of the event; or by [publish]), the coroutine logs
    exactly one ERROR record, with the text of that exception, as the last
    thing it does, and its loop has ended with the rest of the stream left
    in the iterator.  A resumption that meets no such exception logs no
    ERROR record.  An exception that is not an [Exception], raised by the
    iterator, is not caught: it leaves the coroutine and nothing is
    logged.  A login that raises leaves the one ERROR record
    "Authentication failed: ..." and the exception goes on. *)
Theorem failures_are_logged (w : world) :
  (forall x it rest h e,
      ends_loop w (loop_of x) h it e ->
      exists h',
        resume w x (Task false (it :: rest)) h = (Ok (Task true rest), h')
        /\ errors h' = errors h ++ [error_prefix (loop_of x) +:+ exn_msg e]
        /\ last h' = Some (Log ERROR (error_prefix (loop_of x) +:+ exn_msg e)))
  /\ (forall x it rest h t' h',
        resume w x (Task false (it :: rest)) h = (Ok t', h') ->
        (forall e, ~ ends_loop w (loop_of x) h it e) ->
        errors h' = errors h)
  /\ (forall x b rest h,
        resume w x (Task false (Abort b :: rest)) h = (Escape b, h))
  /\ (forall d sched e,
        login w (bsky_username d) (bsky_password d) = Some e ->
        run w d sched []
        = (Raise e, [Login (bsky_username d) (bsky_password d);
                     Log ERROR ("Authentication failed: " +:+ exn_msg e)])).
Proof.
  split_and!.
  - intros x it rest h e Hends. rewrite resume_loop.
    assert (Hstep : exists pre,
               loop_step w (loop_of x) h (Task false (it :: rest))
               = (Task true rest,
                  pre ++ [Log ERROR (error_prefix (loop_of x) +:+ exn_msg e)])
               /\ errors pre = [] /\ uncaught pre = []).
    { unfold loop_step. simpl. destruct it as [v|e'|b]; simpl in Hends.
      - destruct Hends as [->|(d & -> & ->)]; [by exists []|].
        by exists [Publish (event_name (loop_of x)) d].
      - destruct Hends as [-> ->]. by exists [].
      - done. }
    destruct Hstep as (pre & Hstep & Hpe & Hpu).
    exists (h ++ pre ++ [Log ERROR (error_prefix (loop_of x) +:+ exn_msg e)]).
    rewrite stream_loop_ok; rewrite Hstep; simpl.
    + split_and!; [done| |by rewrite !app_assoc, last_snoc].
      by rewrite !errors_app, Hpe.
    + unfold uncaught in *. by rewrite omap_app, Hpu.
  - intros x it rest h t' h' Hres Hnone. rewrite resume_loop in Hres.
    pose proof (stream_loop_step w (loop_of x) (Task false (it :: rest)) h) as Hs.
    unfold resumed in Hs. rewrite Hres in Hs. injection Hs as _ ->.
    rewrite errors_app. unfold loop_step. simpl.
    destruct it as [v|e|b]; simpl.
    + destruct (reshape (loop_of x) v) as [d|e|b] eqn:Hv; simpl.
      * destruct (publish w h (event_name (loop_of x)) d) as [e|] eqn:Hp; simpl.
        -- destruct (Hnone e). right. by exists d.
        -- destruct (loop_of_reads_did x v d Hv) as [did ->]. simpl.
           by rewrite app_nil_r.
      * destruct (Hnone e). by left.
      * by rewrite app_nil_r.
    + destruct (is_stop e) eqn:Hstop; simpl; [by rewrite app_nil_r|].
      by destruct (Hnone e).
    + by rewrite app_nil_r.
  - intros x b rest h. by destruct x.
  - intros d sched e Hl. by rewrite (run_fails _ _ _ _ _ Hl).
Qed.

Lemma failures_are_logged_witness :
  exists h',
    resume (calm scenario []) Posts (Task false [Yield malformed_post; Yield post4]) []
    = (Ok (Task true [Yield post4]), h')
    /\ errors h'
       = errors [] ++ [error_prefix (loop_of Posts)
                       +:+ exn_msg (AttributeError PyNone "did")]
    /\ last h' = Some (Log ERROR (error_prefix (loop_of Posts)
                                  +:+ exn_msg (AttributeError PyNone "did"))).
Proof.
  apply (proj1 (failures_are_logged (calm scenario []))
           Posts (Yield malformed_post) [Yield post4] []
           (AttributeError PyNone "did")).
  left. reflexivity.
Defined.

(** C4 as stated fails: the daemon keeps no drop counter, and none can be
    read off what it leaves behind.  No function of the trace gives the
    number of events lost by a finished run, whether one counts the events
    the iterators handed over and that were never published (a malformed
    post, and an iterator that raises with the same text, leave the very
    same trace), or the events the streams had to offer (a malformed post
    alone, and a malformed post followed by a good one, leave the very
    same trace). *)
Lemma no_drop_counter :
  ~ (exists counter : list effect -> nat,
       forall w sched p n t,
         run w bare_daemon sched [] = (Ok (p, n), t) ->
         finished p = true -> finished n = true ->
         counter t = unpublished_received w p n t)
  /\ ~ (exists counter : list effect -> nat,
          forall w sched p n t,
            run w bare_daemon sched [] = (Ok (p, n), t) ->
            finished p = true -> finished n = true ->
            counter t = unpublished_offered w t).
Proof.
  split; intros [counter H].
  - pose proof (H (calm [Yield malformed_post] []) [Posts; Notifs]
                  _ _ _ eq_refl eq_refl eq_refl) as HA.
    pose proof (H (calm [Throw (AttributeError PyNone "did")] []) [Posts; Notifs]
                  _ _ _ eq_refl eq_refl eq_refl) as HB.
    vm_compute in HA, HB. congruence.
  - pose proof (H (calm [Yield malformed_post] []) [Posts; Notifs]
                  _ _ _ eq_refl eq_refl eq_refl) as HA.
    pose proof (H (calm [Yield malformed_post; Yield post4] []) [Posts; Notifs]
                  _ _ _ eq_refl eq_refl eq_refl) as HB.
    vm_compute in HA, HB. congruence.
Qed.

(** C5, as the code has it: an interruption by an [Exception] touches
    its own stream only.  When the iterator of one stream raises an
    [Exception] at its next resumption, that resumption ends the loop of
    that stream, adds its ERROR record and nothing else, and leaves the
    other coroutine as it was.  And the other coroutine does go on: the
    well-formed events that its iterator gives next are published, in
    order, as often as the schedule resumes it (the channel accepting
    them), while the interrupted loop stays ended. *)
Theorem stream_interruption_is_local (w : world) (x : turn) (sched : list turn)
    (p n : task) (h : list effect) (e : exn) (rest : list item)
    (evs : list pyval) (ds : list dict) (tail : list item) :
  finished (task_of x (p, n)) = false ->
  iterator (task_of x (p, n)) = Throw e :: rest ->
  is_stop e = false ->
  finished (task_of (swap_turn x) (p, n)) = false ->
  iterator (task_of (swap_turn x) (p, n)) = map Yield evs ++ tail ->
  Forall2 (fun v data => reshape (loop_of (swap_turn x)) v = Ok data) evs ds ->
  Forall (fun data =>
            forall h, publish w h (event_name (loop_of (swap_turn x))) data = None) ds ->
  length evs <= turns (swap_turn x) sched ->
  gather w [x] p n h
  = (Ok (with_task x (Task true rest) (p, n)),
     h ++ [Log ERROR (error_prefix (loop_of x) +:+ exn_msg e)])
  /\ exists tasks h' more,
       gather w (x :: sched) p n h = (Ok tasks, h')
       /\ task_of x tasks = Task true rest
       /\ calls (event_name (loop_of (swap_turn x))) h'
          = calls (event_name (loop_of (swap_turn x))) h ++ ds ++ more.
Proof.
  intros Hf Hit Hstop Hfo Hito Hevs Hacc Hlen.
  destruct p as [finp itsp], n as [finn itsn].
  destruct x; simpl in Hf, Hit, Hfo, Hito, Hevs, Hacc, Hlen; subst.
  - split.
    { rewrite gather_eq, gather_with_Posts. unfold loop_step. simpl.
      by rewrite Hstop. }
    rewrite gather_eq, gather_with_Posts. unfold loop_step at 1 2. simpl.
    rewrite Hstop. simpl.
    match goal with |- context [gather_with ?w ?a ?b ?s ?x ?y ?h] =>
      destruct (gather_with_total w a b s x y h) as (p' & n' & a' & Hg) end.
    pose proof Hg as Hg'. apply gather_with_swap in Hg'.
    apply (gather_first_publishes w notifications_loop posts_loop) with (ds := ds) in Hg'
      as [more Hc]; [|discriminate|apply notification_reads_did|done|done|].
    2: by rewrite (turns_swap Notifs).
    pose proof Hg as Hidle.
    apply (gather_first_idle w posts_loop notifications_loop names_differ) in Hidle
      as [_ Hk]; [|by left].
    exists (p', n'). do 2 eexists. split; [exact Hg|]. split; [by apply Hk|].
    simpl in *. rewrite Hc. by rewrite calls_app, app_nil_r.
  - split.
    { rewrite gather_eq, gather_with_Notifs. unfold loop_step. simpl.
      by rewrite Hstop. }
    rewrite gather_eq, gather_with_Notifs. unfold loop_step at 1 2. simpl.
    rewrite Hstop. simpl.
    match goal with |- context [gather_with ?w ?a ?b ?s ?x ?y ?h] =>
      destruct (gather_with_total w a b s x y h) as (p' & n' & a' & Hg) end.
    pose proof Hg as Hg'.
    apply (gather_first_publishes w posts_loop notifications_loop names_differ)
      with (ds := ds) in Hg' as [more Hc]; [|apply post_reads_did|done|done|done].
    pose proof Hg as Hidle. apply gather_with_swap in Hidle.
    apply (gather_first_idle w notifications_loop posts_loop) in Hidle
      as [_ Hk]; [|discriminate|by left].
    exists (p', n'). do 2 eexists. split; [exact Hg|]. split; [by apply Hk|].
    simpl in *. rewrite Hc. by rewrite calls_app, app_nil_r.
Qed.

Lemma stream_interruption_is_local_witness :
  gather (calm [] []) [Posts]
    (Task false [Throw (Exn "ConnectionError" "stream closed"); Yield post1])
    (Task false [Yield notification1]) []
  = (Ok (with_task Posts (Task true [Yield post1])
           (Task false [Throw (Exn "ConnectionError" "stream closed"); Yield post1],
            Task false [Yield notification1])),
     [] ++ [Log ERROR (error_prefix (loop_of Posts)
                       +:+ exn_msg (Exn "ConnectionError" "stream closed"))])
  /\ exists tasks h' more,
       gather (calm [] []) [Posts; Notifs; Notifs]
         (Task false [Throw (Exn "ConnectionError" "stream closed"); Yield post1])
         (Task false [Yield notification1]) []
       = (Ok tasks, h')
       /\ task_of Posts tasks = Task true [Yield post1]
       /\ calls (event_name (loop_of (swap_turn Posts))) h'
          = calls (event_name (loop_of (swap_turn Posts))) []
            ++ [notification_data1] ++ more.
Proof.
  apply (stream_interruption_is_local (calm [] []) Posts [Notifs; Notifs]
           (Task false [Throw (Exn "ConnectionError" "stream closed"); Yield post1])
           (Task false [Yield notification1]) []
           (Exn "ConnectionError" "stream closed") [Yield post1]
           [notification1] [notification_data1] []).
  - reflexivity.
  - reflexivity.
  - reflexivity.
  - reflexivity.
  - reflexivity.
  - repeat constructor.
  - repeat constructor.
  - simpl. lia.
Defined.

(** On a concrete run: after the posts stream is interrupted, the
    notification is still published. *)
Example notifications_go_on_after_interruption :
  gather (calm [] []) [Posts; Notifs; Notifs]
    (Task false [Throw (Exn "ConnectionError" "stream closed"); Yield post1])
    (Task false [Yield notification1]) []
  = (Ok (Task true [Yield post1], Task true []),
     [Log ERROR "Error streaming posts: stream closed";
      Publish "notification" notification_data1;
      Log INFO "Published notification for did:plc:bob"]).
Proof. reflexivity. Qed.

(** C5 as stated fails: an interruption by an exception that is not an
    [Exception] is caught by no [except Exception] clause.  When the
    iterator of the posts stream raises [asyncio.CancelledError], nothing
    is logged, the exception leaves [gather], [run] and [main], and the
    process ends with status 1: the notifications stream ends with it,
    with its notification never consumed, or after whatever the event loop
    still let it do. *)
Lemma cancellation_ends_both_streams :
  main (calm [Abort cancelled; Yield post1] [Yield notification1]) ∅ ∅ [Posts]
  = (Exited 1,
     [Login None None;
      Log INFO "Successfully authenticated with Bluesky";
      Uncaught cancelled])
  /\ (main (calm [Abort cancelled; Yield post1] [Yield notification1]) ∅ ∅
            [Posts; Notifs; Notifs]).1
     = Exited 1.
Proof. split; reflexivity. Qed.

(** C6: one [publish] per reshaped event.  In a run that has reached the
    streams, split each stream into what its iterator has handed over and
    what it still holds: the [publish] calls under the stream's name are
    exactly the dicts of the handed-over events that reshaped without
    raising, one call per event, each carrying that one event's dict, in
    order; and the run makes no other [publish] call. *)
Theorem one_publish_per_event (w : world) (d : daemon) (sched : list turn)
    (p n : task) (t : list effect) :
  run w d sched [] = (Ok (p, n), t) ->
  exists received_posts received_notifications,
    search_posts w = received_posts ++ iterator p
    /\ notifications w = received_notifications ++ iterator n
    /\ calls "new_post" t = reshaped posts_loop received_posts
    /\ calls "notification" t = reshaped notifications_loop received_notifications
    /\ length (published t)
       = length (reshaped posts_loop received_posts)
         + length (reshaped notifications_loop received_notifications).
Proof.
  intros Hrun.
  destruct (run_consumed _ _ _ _ _ _ Hrun) as [Hp Hn].
  apply consumed_ok_reshaped in Hp as (cp & Hsp & Hcp).
  apply consumed_ok_reshaped in Hn as (cn & Hsn & Hcn).
  exists cp, cn. split_and!; try done.
  simpl in Hcp, Hcn. rewrite <- Hcp, <- Hcn.
  apply published_two_names; [discriminate|].
  pose proof (run_published w (fun x => x.1 = "new_post" \/ x.1 = "notification") d sched) as HQ.
  rewrite Hrun in HQ. apply HQ; intros; simpl; auto.
Qed.

Lemma one_publish_per_event_witness :
  exists received_posts received_notifications,
    [Yield post1; Yield malformed_post; Yield post4] = received_posts ++ [Yield post4]
    /\ [Yield notification1] = received_notifications ++ []
    /\ calls "new_post"
         (run (calm [Yield post1; Yield malformed_post; Yield post4] [Yield notification1])
              bare_daemon [Posts; Notifs; Posts; Notifs] []).2
       = reshaped posts_loop received_posts
    /\ calls "notification"
         (run (calm [Yield post1; Yield malformed_post; Yield post4] [Yield notification1])
              bare_daemon [Posts; Notifs; Posts; Notifs] []).2
       = reshaped notifications_loop received_notifications
    /\ length (published
         (run (calm [Yield post1; Yield malformed_post; Yield post4] [Yield notification1])
              bare_daemon [Posts; Notifs; Posts; Notifs] []).2)
       = length (reshaped posts_loop received_posts)
         + length (reshaped notifications_loop received_notifications).
Proof.
  apply (one_publish_per_event
           (calm [Yield post1; Yield malformed_post; Yield post4] [Yield notification1])
           bare_daemon [Posts; Notifs; Posts; Notifs]
           (Task true [Yield post4]) (Task true [])).
  vm_compute. reflexivity.
Defined.

(** C7, as the code has it: the two paths publish two different dicts,
    neither with the keys of the canonical record.  Every [publish] of a
    run is either a "new_post" with the keys type, did, cid, text,
    timestamp and type "post", or a "notification" with the keys type,
    reason, author, record and type "notification". *)
Theorem published_dict_shapes (w : world) (d : daemon) (sched : list turn)
    (name : string) (data : dict) :
  (name, data) ∈ published (run w d sched []).2 ->
  (name = "new_post"
   /\ exists did cid text created_at,
        data = [("type", PyStr "post"); ("did", did); ("cid", cid);
                ("text", text); ("timestamp", created_at)])
  \/ (name = "notification"
      /\ exists reason did record,
           data = [("type", PyStr "notification"); ("reason", reason);
                   ("author", did); ("record", record)]).
Proof.
  intros Hin.
  assert (HF : Forall
    (fun x : string * dict =>
       (x.1 = "new_post"
        /\ exists did cid text created_at,
             x.2 = [("type", PyStr "post"); ("did", did); ("cid", cid);
                    ("text", text); ("timestamp", created_at)])
       \/ (x.1 = "notification"
           /\ exists reason did record,
                x.2 = [("type", PyStr "notification"); ("reason", reason);
                       ("author", did); ("record", record)]))
    (published (run w d sched []).2));
    [apply run_published|rewrite Forall_forall in HF; exact (HF (name, data) Hin)].
  - intros v x. unfold post_event_data, rbind.
    destruct (getattr v "author") as [a| |]; [|done..].
    destruct (getattr a "did") as [did| |]; [|done..].
    destruct (getattr v "cid") as [cid| |]; [|done..].
    destruct (getattr v "record") as [r| |]; [|done..].
    destruct (getattr r "text") as [text| |]; [|done..].
    destruct (getattr r "created_at") as [ts| |]; [|done..].
    intros [= <-]. left. simpl. eauto 10.
  - intros v x. unfold notification_event_data, rbind.
    destruct (getattr v "reason") as [r| |]; [|done..].
    destruct (getattr v "author") as [a| |]; [|done..].
    destruct (getattr a "did") as [did| |]; [|done..].
    destruct (getattr v "record") as [rec| |]; [|done..].
    intros [= <-]. right. simpl. eauto 10.
Qed.

Lemma published_dict_shapes_witness :
  ("notification" = "new_post"
   /\ exists did cid text created_at,
        notification_data1 = [("type", PyStr "post"); ("did", did); ("cid", cid);
                              ("text", text); ("timestamp", created_at)])
  \/ ("notification" = "notification"
      /\ exists reason did record,
           notification_data1 = [("type", PyStr "notification"); ("reason", reason);
                                 ("author", did); ("record", record)]).
Proof.
  apply (published_dict_shapes (calm [Yield post1] [Yield notification1]) bare_daemon
           [Posts; Notifs]).
  vm_compute. apply list_elem_of_further, list_elem_of_here.
Defined.

(** C7 as stated fails: the dicts handed to [publish] for a post and for a
    notification have different keys, and neither has the keys of the
    canonical record. *)
Lemma published_dicts_are_not_canonical :
  published (run (calm [Yield post1] [Yield notification1]) bare_daemon [Posts; Notifs] []).2
  = [("new_post", data1); ("notification", notification_data1)]
  /\ map fst data1 <> CanonicalEvent_keys
  /\ map fst notification_data1 <> CanonicalEvent_keys
  /\ map fst data1 <> map fst notification_data1.
Proof. split_and!; [reflexivity|discriminate..]. Qed.

(** C9: explicit credentials win.  For each of the three credentials, a
    truthy constructor argument is what the daemon keeps, and only a
    missing or empty argument makes it read the environment variable
    (the environment as [load_dotenv] left it). *)
Theorem explicit_credentials_take_precedence (w : world)
    (username password api_key : option string) (channel : string)
    (environ dotenv : gmap string string) (d : daemon) :
  __init__ w username password api_key channel environ dotenv = Ok d ->
  (truthy username = true -> bsky_username d = username)
  /\ (truthy username = false ->
      bsky_username d = getenv (load_dotenv environ dotenv) "BSKY_USERNAME")
  /\ (truthy password = true -> bsky_password d = password)
  /\ (truthy password = false ->
      bsky_password d = getenv (load_dotenv environ dotenv) "BSKY_PASSWORD")
  /\ (truthy api_key = true -> ably_api_key d = api_key)
  /\ (truthy api_key = false ->
      ably_api_key d = getenv (load_dotenv environ dotenv) "ABLY_API_KEY").
Proof.
  unfold __init__. destruct (ably_rest w _); [done|]. intros [= <-]. simpl.
  unfold py_or. split_and!; by intros ->.
Qed.

Lemma explicit_credentials_take_precedence_witness :
  let d := Daemon (Some "alice.bsky.social") (Some "from-env") (Some "key-from-env") "bsky-events" in
  (truthy (Some "alice.bsky.social") = true -> bsky_username d = Some "alice.bsky.social")
  /\ (truthy (Some "alice.bsky.social") = false ->
      bsky_username d
      = getenv (load_dotenv {["BSKY_PASSWORD" := "from-env"]} {["ABLY_API_KEY" := "key-from-env"]})
               "BSKY_USERNAME")
  /\ (truthy None = true -> bsky_password d = None)
  /\ (truthy None = false ->
      bsky_password d
      = getenv (load_dotenv {["BSKY_PASSWORD" := "from-env"]} {["ABLY_API_KEY" := "key-from-env"]})
               "BSKY_PASSWORD")
  /\ (truthy (Some "") = true -> ably_api_key d = Some "")
  /\ (truthy (Some "") = false ->
      ably_api_key d
      = getenv (load_dotenv {["BSKY_PASSWORD" := "from-env"]} {["ABLY_API_KEY" := "key-from-env"]})
               "ABLY_API_KEY").
Proof.
  apply (explicit_credentials_take_precedence (calm [] [])
           (Some "alice.bsky.social") None (Some "") "bsky-events"
           {["BSKY_PASSWORD" := "from-env"]} {["ABLY_API_KEY" := "key-from-env"]}).
  vm_compute. reflexivity.
Defined.

(** C10: nothing is published before the login has succeeded.  If the
    login raises, the run makes no [publish] call at all; and in any run,
    whatever precedes a [publish] call in the trace starts with the login
    call and the record of its success. *)
Theorem no_publish_before_login (w : world) (d : daemon) (sched : list turn) :
  let t := (run w d sched []).2 in
  (forall e, login w (bsky_username d) (bsky_password d) = Some e -> published t = [])
  /\ (forall t1 name data t2,
        t = t1 ++ Publish name data :: t2 ->
        login w (bsky_username d) (bsky_password d) = None
        /\ exists t1',
             t1 = Login (bsky_username d) (bsky_password d)
                  :: Log INFO "Successfully authenticated with Bluesky" :: t1').
Proof.
  simpl. split.
  - intros e Hl. by rewrite (run_fails _ _ _ _ _ Hl).
  - intros t1 name data t2 Ht.
    destruct (login w (bsky_username d) (bsky_password d)) as [e|] eqn:Hl.
    + rewrite (run_fails _ _ _ _ _ Hl) in Ht. simpl in Ht.
      destruct t1 as [|x [|y [|z t1]]]; simpl in Ht; simplify_eq.
    + split; [done|]. rewrite (run_ok _ _ _ _ Hl) in Ht.
      match type of Ht with context [gather_with ?w ?a ?b ?s ?x ?y ?h] =>
        destruct (gather_with_total w a b s x y h) as (p & n & a' & Hg) end.
      rewrite Hg in Ht. simpl in Ht.
      destruct t1 as [|x [|y t1]]; simpl in Ht; simplify_eq. by exists t1.
Qed.

Lemma no_publish_before_login_witness :
  published (run (locked_out [Yield post1] [Yield notification1]) bare_daemon
                 [Posts; Notifs; Posts] []).2 = [].
Proof.
  apply (proj1 (no_publish_before_login
                  (locked_out [Yield post1] [Yield notification1]) bare_daemon
                  [Posts; Notifs; Posts])
               (Exn "UnauthorizedError" "Invalid identifier or password")).
  reflexivity.
Defined.

(** * Further properties of the code *)

Section MoreFacts.

Variable w : world.
Variables L1 L2 : loop.
Hypothesis Hne : event_name L1 <> event_name L2.

Lemma logins_app h a : logins (h ++ a) = logins h ++ logins a.
Proof. unfold logins. apply omap_app. Qed.

(** A loop never logs in. *)
Lemma loop_step_logins L h t : logins (loop_step w L h t).2 = [].
Proof.
  unfold loop_step. destruct t as [[] its]; simpl; [done|].
  destruct its as [|[v|e|b] rest]; simpl; [done| |by destruct (is_stop e)|done].
  destruct (reshape L v) as [d|e|b]; simpl; [|done..].
  destruct (publish w h (event_name L) d) as [e|]; simpl; [done|].
  by destruct (author_did v).
Qed.

Lemma gather_with_logins sched t1 t2 h t1' t2' h' :
  gather_with w L1 L2 sched t1 t2 h = (Ok (t1', t2'), h') -> logins h' = logins h.
Proof.
  revert t1 t2 h. induction sched as [|[] sched IH]; intros t1 t2 h.
  - simpl. unfold ret. by intros [= <- <- <-].
  - rewrite gather_with_Posts. intros Hg. apply IH in Hg.
    by rewrite Hg, logins_app, loop_step_logins, app_nil_r.
  - rewrite gather_with_Notifs. intros Hg. apply IH in Hg.
    by rewrite Hg, logins_app, loop_step_logins, app_nil_r.
Qed.

(** A resumption logs an ERROR record only when it ends its loop. *)
Lemma loop_step_errors L h t :
  ended t + length (errors (loop_step w L h t).2) <= ended (loop_step w L h t).1.
Proof.
  unfold loop_step, ended. destruct t as [[] its]; simpl; [lia|].
  destruct its as [|[v|e|b] rest]; simpl; [lia| |destruct (is_stop e); simpl; lia|lia].
  destruct (reshape L v) as [d|e|b]; simpl; [|lia..].
  destruct (publish w h (event_name L) d) as [e|]; simpl; [lia|].
  destruct (author_did v); simpl; lia.
Qed.

Lemma gather_with_errors sched t1 t2 h t1' t2' h' :
  length (errors h) <= ended t1 + ended t2 ->
  gather_with w L1 L2 sched t1 t2 h = (Ok (t1', t2'), h') ->
  length (errors h') <= ended t1' + ended t2'.
Proof.
  revert t1 t2 h. induction sched as [|[] sched IH]; intros t1 t2 h Hh.
  - simpl. unfold ret. by intros [= <- <- <-].
  - rewrite gather_with_Posts. apply IH.
    rewrite errors_app, length_app. pose proof (loop_step_errors L1 h t1). lia.
  - rewrite gather_with_Notifs. apply IH.
    rewrite errors_app, length_app. pose proof (loop_step_errors L2 h t2). lia.
Qed.

(** Resumed more often than its iterator has items, a loop has ended. *)
Lemma gather_first_finishes sched t1 t2 h t1' t2' h' :
  finished t1 = true \/ length (iterator t1) < turns Posts sched ->
  gather_with w L1 L2 sched t1 t2 h = (Ok (t1', t2'), h') ->
  finished t1' = true.
Proof.
  revert t1 t2 h. induction sched as [|[] sched IH]; intros t1 t2 h Hm.
  - simpl. unfold ret. intros [= <- <- <-]. destruct Hm as [?|Hm]; [done|].
    simpl in Hm. lia.
  - rewrite gather_with_Posts. apply IH.
    unfold loop_step. destruct t1 as [[] its]; simpl in *; [by left|].
    destruct Hm as [?|Hm]; [done|].
    destruct its as [|[v|e|b] rest]; simpl in *;
      [by left| |destruct (is_stop e); by left|by left].
    destruct (reshape L1 v) as [d|e|b]; simpl; [|by left..].
    destruct (publish w h (event_name L1) d) as [e|]; simpl; [by left|].
    destruct (author_did v); simpl; [right; lia|by left..].
  - rewrite gather_with_Notifs. apply IH. simpl in Hm. done.
Qed.

(** [gather_first_progress] when the channel is only known to accept the
    events at hand. *)
Lemma gather_first_progress_on sched pre ds tail t2 h t1' t2' h' :
  reads_did L1 ->
  Forall2 (fun v d => reshape L1 v = Ok d) pre ds ->
  Forall (fun d => forall h, publish w h (event_name L1) d = None) ds ->
  length pre <= turns Posts sched ->
  gather_with w L1 L2 sched (Task false (map Yield pre ++ tail)) t2 h = (Ok (t1', t2'), h') ->
  exists sched0 t20 h0,
    gather_with w L1 L2 sched0 (Task false tail) t20 h0 = (Ok (t1', t2'), h')
    /\ calls (event_name L1) h0 = calls (event_name L1) h ++ ds
    /\ turns Posts sched0 + length pre = turns Posts sched.
Proof.
  intros Hdid. revert pre ds t2 h.
  induction sched as [|[] sched IH]; intros pre ds t2 h Hpre Hacc Hlen Hg.
  - destruct Hpre; simpl in Hlen; [|lia].
    exists [], t2, h. by rewrite app_nil_r.
  - destruct Hpre as [|v d pre ds Hv Hpre].
    { exists (Posts :: sched), t2, h. split_and!; [done|by rewrite app_nil_r|simpl; lia]. }
    rewrite gather_with_Posts in Hg. simpl in Hlen.
    apply Forall_cons in Hacc as [Hd Hacc].
    destruct (Hdid v d Hv) as [did Hdd].
    assert (Hs : loop_step w L1 h (Task false (map Yield (v :: pre) ++ tail))
                 = (Task false (map Yield pre ++ tail),
                    [Publish (event_name L1) d; Log INFO (info_prefix L1 +:+ py_str w did)])).
    { unfold loop_step. simpl. by rewrite Hv, Hd, Hdd. }
    rewrite Hs in Hg. simpl fst in Hg. simpl snd in Hg.
    apply IH with (ds := ds) in Hg as (sched0 & t20 & h0 & Hg0 & Hc & Ht); [|done|done|lia].
    exists sched0, t20, h0. split_and!; [done| |simpl; lia].
    rewrite Hc.
    change [Publish (event_name L1) d; Log INFO (info_prefix L1 +:+ py_str w did)]
      with ([Publish (event_name L1) d] ++ [Log INFO (info_prefix L1 +:+ py_str w did)]).
    rewrite !calls_app, calls_publish_same. simpl. by rewrite <- app_assoc.
  - rewrite gather_with_Notifs in Hg. simpl in Hlen.
    apply IH with (ds := ds) in Hg as (sched0 & t20 & h0 & Hg0 & Hc & Ht); [|done..].
    exists sched0, t20, h0. split_and!; [done| |done].
    rewrite Hc, calls_app, (loop_step_calls_other w L2); [|done].
    by rewrite app_nil_r.
Qed.

(** When its next resumption ends the first loop, whatever that resumption
    does is the last the loop does. *)
Lemma gather_first_last sched t1 t2 h t1x a t1' t2' h' :
  (forall h, loop_step w L1 h t1 = (t1x, a)) ->
  finished t1x = true ->
  1 <= turns Posts sched ->
  gather_with w L1 L2 sched t1 t2 h = (Ok (t1', t2'), h') ->
  t1' = t1x
  /\ calls (event_name L1) h' = calls (event_name L1) h ++ calls (event_name L1) a
  /\ exists h1 h2, h' = h1 ++ a ++ h2.
Proof.
  intros Hs Hf. revert t2 h.
  induction sched as [|[] sched IH]; intros t2 h Hlen Hg; simpl in Hlen; [lia| |].
  - rewrite gather_with_Posts, Hs in Hg. simpl in Hg.
    destruct (gather_with_extends w L1 L2 _ _ _ _ _ _ _ Hg) as [b Hb].
    apply (gather_first_idle w L1 L2 Hne) in Hg as [Hc Hk]; [|by left].
    split_and!; [by apply Hk|by rewrite Hc, calls_app|].
    exists h, b. by rewrite Hb, <- app_assoc.
  - rewrite gather_with_Notifs in Hg.
    apply IH in Hg as (Ht & Hc & Hh); [|done].
    split_and!; try done.
    rewrite Hc, calls_app, (loop_step_calls_other w L2); [|done].
    by rewrite app_nil_r.
Qed.

Lemma publish_then_log_app R a b :
  publish_then_log R a -> publish_then_log R b -> publish_then_log R (a ++ b).
Proof.
  intros Ha Hb i name data Hi.
  destruct (decide (i < length a)) as [Hlt|Hge].
  - rewrite lookup_app_l in Hi by done.
    destruct (Ha i name data Hi) as (lv & msg & Hn & HR).
    exists lv, msg. split; [|done].
    rewrite lookup_app_l; [done|]. by apply lookup_lt_Some in Hn.
  - rewrite lookup_app_r in Hi by lia.
    destruct (Hb _ name data Hi) as (lv & msg & Hn & HR).
    exists lv, msg. split; [|done].
    rewrite lookup_app_r by lia.
    by replace (S i - length a) with (S (i - length a)) by lia.
Qed.

Lemma loop_step_publish_then_log (R : string -> dict -> level -> string -> Prop) L h t :
  (forall v d did, reshape L v = Ok d -> author_did v = Ok did ->
                   R (event_name L) d INFO (info_prefix L +:+ py_str w did)) ->
  (forall d e, R (event_name L) d ERROR (error_prefix L +:+ exn_msg e)) ->
  publish_then_log R (loop_step w L h t).2.
Proof using w.
  clear Hne. intros Hinfo Herr i name data. unfold loop_step.
  destruct t as [[] its]; simpl; [done|].
  destruct its as [|[v|e|b] rest]; simpl;
    [done| |destruct (is_stop e); by destruct i as [|[]]|by destruct i as [|[]]].
  destruct (reshape L v) as [d|e|b] eqn:Hv; simpl; [|by destruct i as [|[]]..].
  destruct (publish w h (event_name L) d) as [e|]; simpl.
  - destruct i as [|[|i]]; simpl; intros; simplify_eq. eauto.
  - destruct (author_did v) as [did|e|b] eqn:Hd; simpl;
      [| |by apply author_did_never_escapes in Hd];
      destruct i as [|[|i]]; simpl; intros; simplify_eq; eauto.
Qed.

Lemma gather_with_publish_then_log (R : string -> dict -> level -> string -> Prop)
    sched t1 t2 h t1' t2' h' :
  (forall h t, publish_then_log R (loop_step w L1 h t).2) ->
  (forall h t, publish_then_log R (loop_step w L2 h t).2) ->
  publish_then_log R h ->
  gather_with w L1 L2 sched t1 t2 h = (Ok (t1', t2'), h') ->
  publish_then_log R h'.
Proof.
  intros H1 H2. revert t1 t2 h.
  induction sched as [|[] sched IH]; intros t1 t2 h Hh.
  - simpl. unfold ret. by intros [= <- <- <-].
  - rewrite gather_with_Posts. apply IH. by apply publish_then_log_app.
  - rewrite gather_with_Notifs. apply IH. by apply publish_then_log_app.
Qed.

End MoreFacts.

Section Endings.

Variable w : world.

(** A stream whose loop is ended by its item [it], after the events
    [pre], whatever the interleaving with the other stream. *)
Lemma run_stream_ends d sched x pre ds it rest a :
  login w (bsky_username d) (bsky_password d) = None ->
  stream_of w x = map Yield pre ++ it :: rest ->
  Forall2 (fun v data => reshape (loop_of x) v = Ok data) pre ds ->
  Forall (fun data => forall h, publish w h (event_name (loop_of x)) data = None) ds ->
  (forall h, loop_step w (loop_of x) h (Task false (it :: rest)) = (Task true rest, a)) ->
  length pre < turns x sched ->
  exists tasks t,
    run w d sched [] = (Ok tasks, t)
    /\ task_of x tasks = Task true rest
    /\ calls (event_name (loop_of x)) t = ds ++ calls (event_name (loop_of x)) a
    /\ forall y, y ∈ a -> y ∈ t.
Proof.
  intros Hl Hs Hpre Hacc Hit Hlen.
  rewrite (run_ok _ _ _ _ Hl).
  match goal with |- context [gather_with ?w ?a ?b ?s ?x ?y ?h] =>
    destruct (gather_with_total w a b s x y h) as (p & n & a' & Hg) end.
  exists (p, n). eexists. split; [exact Hg|].
  assert (Hgen : forall L1 L2 s t2 t1' t2' h',
             event_name L1 <> event_name L2 -> reads_did L1 -> L1 = loop_of x ->
             length pre < turns Posts s ->
             gather_with w L1 L2 s (Task false (map Yield pre ++ it :: rest)) t2
               [Login (bsky_username d) (bsky_password d);
                Log INFO "Successfully authenticated with Bluesky"] = (Ok (t1', t2'), h') ->
             t1' = Task true rest
             /\ calls (event_name L1) h' = ds ++ calls (event_name L1) a
             /\ forall y, y ∈ a -> y ∈ h').
  { intros L1 L2 s t2 t1' t2' h' Hne Hdid -> Hturns Hrun.
    apply (gather_first_progress_on w _ L2 Hne) with (ds := ds) in Hrun
      as (sched0 & t20 & h0 & Hrun & Hc & Ht); [|done|done|done|lia].
    apply (gather_first_last w _ L2 Hne) with (t1x := Task true rest) (a := a) in Hrun
      as (-> & Hc' & h1 & h2 & ->); [|done|done|lia].
    split_and!; [done| |set_solver].
    rewrite Hc', Hc. by destruct x. }
  destruct x; simpl in *.
  - rewrite Hs in Hg.
    by apply (Hgen posts_loop notifications_loop) in Hg;
      [|apply names_differ|apply post_reads_did|done|done].
  - apply gather_with_swap in Hg. rewrite Hs in Hg.
    apply (Hgen notifications_loop posts_loop) in Hg;
      [done|discriminate|apply notification_reads_did|done|].
    by rewrite (turns_swap Notifs).
Qed.

Lemma post_data_did v data did :
  post_event_data v = Ok data -> author_did v = Ok did -> assoc "did" data = Some did.
Proof.
  unfold post_event_data, author_did, rbind.
  destruct (getattr v "author") as [a| |]; [|done..].
  destruct (getattr a "did") as [did'| |]; [|done..].
  destruct (getattr v "cid") as [cid| |]; [|done..].
  destruct (getattr v "record") as [r| |]; [|done..].
  destruct (getattr r "text") as [text| |]; [|done..].
  destruct (getattr r "created_at") as [ts| |]; [|done..].
  by intros [= <-] [= <-].
Qed.

Lemma notification_data_did v data did :
  notification_event_data v = Ok data -> author_did v = Ok did ->
  assoc "author" data = Some did.
Proof.
  unfold notification_event_data, author_did, rbind.
  destruct (getattr v "reason") as [r| |]; [|done..].
  destruct (getattr v "author") as [a| |]; [|done..].
  destruct (getattr a "did") as [did'| |]; [|done..].
  destruct (getattr v "record") as [rec| |]; [|done..].
  by intros [= <-] [= <-].
Qed.

End Endings.

(** X1: the daemon logs in exactly once per run, with the credentials the
    constructor stored; no failure of the login, of a stream or of the
    channel makes it log in again. *)
Theorem login_happens_once (w : world) (d : daemon) (sched : list turn) :
  logins (run w d sched []).2 = [(bsky_username d, bsky_password d)].
Proof.
  destruct (login w (bsky_username d) (bsky_password d)) as [e|] eqn:Hl.
  { by rewrite (run_fails _ _ _ _ _ Hl). }
  rewrite (run_ok _ _ _ _ Hl).
  match goal with |- context [gather_with ?w ?a ?b ?s ?x ?y ?h] =>
    destruct (gather_with_total w a b s x y h) as (p & n & a' & Hg) end.
  rewrite Hg. apply gather_with_logins in Hg. exact Hg.
Qed.

(** X2: [main] builds the daemon with no argument, so the credentials of
    its login are what [os.getenv] gives for BSKY_USERNAME and
    BSKY_PASSWORD once [load_dotenv] has run: [None] for a variable that
    is set nowhere. *)
Theorem main_logs_in_from_the_environment (w : world)
    (environ dotenv : gmap string string) (sched : list turn) :
  ably_rest w (getenv (load_dotenv environ dotenv) "ABLY_API_KEY") = None ->
  logins (main w environ dotenv sched).2
  = [(getenv (load_dotenv environ dotenv) "BSKY_USERNAME",
      getenv (load_dotenv environ dotenv) "BSKY_PASSWORD")].
Proof.
  intros Hk. unfold main, __init__, py_or. simpl. rewrite Hk.
  pose proof (login_happens_once w
    (Daemon (getenv (load_dotenv environ dotenv) "BSKY_USERNAME")
            (getenv (load_dotenv environ dotenv) "BSKY_PASSWORD")
            (getenv (load_dotenv environ dotenv) "ABLY_API_KEY") "bsky-events") sched) as H.
  destruct (run w _ sched []) as [[[p n]|e|b] t]; exact H.
Qed.

Lemma main_logs_in_from_the_environment_witness :
  logins (main (calm [Yield post1] []) {["BSKY_USERNAME" := "alice.bsky.social"]} ∅
               [Posts; Notifs]).2
  = [(getenv (load_dotenv {["BSKY_USERNAME" := "alice.bsky.social"]} ∅) "BSKY_USERNAME",
      getenv (load_dotenv {["BSKY_USERNAME" := "alice.bsky.social"]} ∅) "BSKY_PASSWORD")].
Proof.
  apply (main_logs_in_from_the_environment (calm [Yield post1] [])
           {["BSKY_USERNAME" := "alice.bsky.social"]} ∅ [Posts; Notifs]).
  reflexivity.
Defined.

(** X3: for a credential passed as no argument (or as an empty one), a
    variable of the process environment wins over the same variable of
    the .env file, which is read only when the process environment does
    not set it. *)
Theorem process_environment_overrides_dotenv (w : world)
    (username password api_key : option string) (channel : string)
    (environ dotenv : gmap string string) (d : daemon) :
  __init__ w username password api_key channel environ dotenv = Ok d ->
  (truthy username = false ->
   bsky_username d = match environ !! "BSKY_USERNAME" with
                     | Some v => Some v
                     | None => dotenv !! "BSKY_USERNAME"
                     end)
  /\ (truthy password = false ->
      bsky_password d = match environ !! "BSKY_PASSWORD" with
                        | Some v => Some v
                        | None => dotenv !! "BSKY_PASSWORD"
                        end)
  /\ (truthy api_key = false ->
      ably_api_key d = match environ !! "ABLY_API_KEY" with
                       | Some v => Some v
                       | None => dotenv !! "ABLY_API_KEY"
                       end).
Proof.
  unfold __init__. destruct (ably_rest w _); [done|]. intros [= <-]. simpl.
  unfold py_or, getenv, load_dotenv.
  split_and!; intros ->; rewrite lookup_union;
    by destruct (environ !! _), (dotenv !! _).
Qed.

Lemma process_environment_overrides_dotenv_witness :
  let d := Daemon (Some "from-process") (Some "from-file") None "bsky-events" in
  (truthy None = false ->
   bsky_username d
   = match ({["BSKY_USERNAME" := "from-process"]} : gmap string string) !! "BSKY_USERNAME" with
     | Some v => Some v
     | None => ({["BSKY_USERNAME" := "from-file"; "BSKY_PASSWORD" := "from-file"]}
                  : gmap string string) !! "BSKY_USERNAME"
     end)
  /\ (truthy (Some "") = false ->
      bsky_password d
      = match ({["BSKY_USERNAME" := "from-process"]} : gmap string string) !! "BSKY_PASSWORD" with
        | Some v => Some v
        | None => ({["BSKY_USERNAME" := "from-file"; "BSKY_PASSWORD" := "from-file"]}
                     : gmap string string) !! "BSKY_PASSWORD"
        end)
  /\ (truthy None = false ->
      ably_api_key d
      = match ({["BSKY_USERNAME" := "from-process"]} : gmap string string) !! "ABLY_API_KEY" with
        | Some v => Some v
        | None => ({["BSKY_USERNAME" := "from-file"; "BSKY_PASSWORD" := "from-file"]}
                     : gmap string string) !! "ABLY_API_KEY"
        end).
Proof.
  apply (process_environment_overrides_dotenv (calm [] []) None (Some "") None "bsky-events"
           {["BSKY_USERNAME" := "from-process"]}
           {["BSKY_USERNAME" := "from-file"; "BSKY_PASSWORD" := "from-file"]}).
  vm_compute. reflexivity.
Defined.

(** X4: a failure to build the Ably client is fatal and leaves no trace.
    When [Ably.Rest] refuses the key that the environment gives, the
    process ends with status 1 before anything else happens: no login
    call, no log record (the daemon's logger is not used), no [publish]. *)
Theorem client_construction_failure_is_silent (w : world)
    (environ dotenv : gmap string string) (sched : list turn) (e : exn) :
  ably_rest w (getenv (load_dotenv environ dotenv) "ABLY_API_KEY") = Some e ->
  main w environ dotenv sched = (Exited 1, []).
Proof.
  intros Hk. unfold main, __init__, py_or. simpl. by rewrite Hk.
Qed.

Lemma client_construction_failure_is_silent_witness :
  main (World (fun key => match key with
                          | None => Some (Exn "ValueError" "key is missing")
                          | Some _ => None
                          end)
              (fun _ _ => None) [Yield post1] [] (fun _ _ _ => None) plain_str)
       ∅ ∅ [Posts; Notifs]
  = (Exited 1, []).
Proof.
  apply (client_construction_failure_is_silent _ ∅ ∅ [Posts; Notifs]
           (Exn "ValueError" "key is missing")).
  reflexivity.
Defined.

Lemma post_event_data_never_escapes v b : post_event_data v <> Escape b.
Proof.
  unfold post_event_data, rbind.
  destruct (getattr v "author") as [a| |b1] eqn:H1; [|done|by apply getattr_never_escapes in H1].
  destruct (getattr a "did") as [did| |b2] eqn:H2; [|done|by apply getattr_never_escapes in H2].
  destruct (getattr v "cid") as [cid| |b3] eqn:H3; [|done|by apply getattr_never_escapes in H3].
  destruct (getattr v "record") as [r| |b4] eqn:H4; [|done|by apply getattr_never_escapes in H4].
  destruct (getattr r "text") as [text| |b5] eqn:H5; [|done|by apply getattr_never_escapes in H5].
  destruct (getattr r "created_at") as [ts| |b6] eqn:H6;
    [done|done|by apply getattr_never_escapes in H6].
Qed.

Lemma notification_event_data_never_escapes v b : notification_event_data v <> Escape b.
Proof.
  unfold notification_event_data, rbind.
  destruct (getattr v "reason") as [r| |b1] eqn:H1; [|done|by apply getattr_never_escapes in H1].
  destruct (getattr v "author") as [a| |b2] eqn:H2; [|done|by apply getattr_never_escapes in H2].
  destruct (getattr a "did") as [did| |b3] eqn:H3; [|done|by apply getattr_never_escapes in H3].
  destruct (getattr v "record") as [rec| |b4] eqn:H4;
    [done|done|by apply getattr_never_escapes in H4].
Qed.

Section Caught.

Variable w : world.

(** With iterators that raise nothing but instances of [Exception], no
    exception leaves a coroutine. *)
Lemma loop_step_no_abort L h t :
  (forall v b, reshape L v <> Escape b) ->
  no_abort (iterator t) ->
  uncaught (loop_step w L h t).2 = []
  /\ no_abort (iterator (loop_step w L h t).1).
Proof.
  intros Hr Hna. unfold loop_step.
  destruct t as [[] its]; simpl in *; [done|].
  destruct its as [|[v|e|b] rest]; simpl; [done| | |].
  - apply Forall_cons in Hna as [_ Hna].
    destruct (reshape L v) as [d|e|b] eqn:Hv; simpl; [|done|by apply Hr in Hv].
    destruct (publish w h (event_name L) d) as [e|]; simpl; [done|].
    destruct (author_did v) as [did|e|b] eqn:Hd; simpl;
      [done|done|by apply author_did_never_escapes in Hd].
  - apply Forall_cons in Hna as [_ Hna]. by destruct (is_stop e).
  - apply Forall_cons in Hna as [Hb _]. by destruct (Hb b).
Qed.

Lemma gather_with_no_abort L1 L2 sched t1 t2 h t1' t2' h' :
  (forall v b, reshape L1 v <> Escape b) ->
  (forall v b, reshape L2 v <> Escape b) ->
  no_abort (iterator t1) -> no_abort (iterator t2) ->
  gather_with w L1 L2 sched t1 t2 h = (Ok (t1', t2'), h') ->
  uncaught h' = uncaught h.
Proof.
  intros Hr1 Hr2. revert t1 t2 h.
  induction sched as [|[] sched IH]; intros t1 t2 h H1 H2.
  - simpl. unfold ret. by intros [= <- <- <-].
  - rewrite gather_with_Posts. intros Hg.
    destruct (loop_step_no_abort L1 h t1 Hr1 H1) as [Hu Hn].
    apply IH in Hg; [|done..]. rewrite Hg. unfold uncaught in *.
    by rewrite omap_app, Hu, app_nil_r.
  - rewrite gather_with_Notifs. intros Hg.
    destruct (loop_step_no_abort L2 h t2 Hr2 H2) as [Hu Hn].
    apply IH in Hg; [|done..]. rewrite Hg. unfold uncaught in *.
    by rewrite omap_app, Hu, app_nil_r.
Qed.

(** The uncaught exceptions of a run whose iterators raise nothing but
    instances of [Exception]: none. *)
Lemma run_no_abort d sched p n t :
  no_abort (search_posts w) -> no_abort (notifications w) ->
  run w d sched [] = (Ok (p, n), t) -> uncaught t = [].
Proof.
  intros Hp Hn.
  destruct (login w (bsky_username d) (bsky_password d)) as [e|] eqn:Hl.
  { by rewrite (run_fails _ _ _ _ _ Hl). }
  rewrite (run_ok _ _ _ _ Hl). intros Hg.
  apply gather_with_no_abort in Hg; [by rewrite Hg| | |done|done].
  - apply post_event_data_never_escapes.
  - apply notification_event_data_never_escapes.
Qed.

End Caught.

(** X5: once the login has succeeded, no [Exception] in the streams or
    from the channel makes the process fail.  When the iterators raise
    nothing but instances of [Exception], then whatever they give,
    whatever the reshaping raises and whatever [publish] answers, the
    daemon is still streaming or has exited with status 0. *)
Theorem stream_failures_are_not_fatal (w : world)
    (environ dotenv : gmap string string) (sched : list turn) (d : daemon) :
  __init__ w None None None "bsky-events" environ dotenv = Ok d ->
  login w (bsky_username d) (bsky_password d) = None ->
  no_abort (search_posts w) ->
  no_abort (notifications w) ->
  (main w environ dotenv sched).1 = Streaming
  \/ (main w environ dotenv sched).1 = Exited 0.
Proof.
  intros Hinit Hl Hp Hn. unfold main. rewrite Hinit.
  pose proof (run_no_abort w d sched) as Hu. rewrite (run_ok _ _ _ _ Hl) in *.
  match goal with |- context [gather_with ?w ?a ?b ?s ?x ?y ?h] =>
    destruct (gather_with_total w a b s x y h) as (p & n & a' & Hg) end.
  rewrite Hg in *. rewrite (Hu p n _ Hp Hn eq_refl).
  simpl. destruct (finished p && finished n); auto.
Qed.

Lemma stream_failures_are_not_fatal_witness :
  (main (refusing "1" [Yield post1; Yield post2] [Throw (Exn "ConnectionError" "closed")])
        ∅ ∅ [Posts; Notifs]).1 = Streaming
  \/ (main (refusing "1" [Yield post1; Yield post2] [Throw (Exn "ConnectionError" "closed")])
           ∅ ∅ [Posts; Notifs]).1 = Exited 0.
Proof.
  apply (stream_failures_are_not_fatal
           (refusing "1" [Yield post1; Yield post2] [Throw (Exn "ConnectionError" "closed")])
           ∅ ∅ [Posts; Notifs] bare_daemon); try reflexivity.
  - repeat constructor; discriminate.
  - repeat constructor; discriminate.
Defined.

(** X6: when both streams are finite and their iterators raise nothing
    but instances of [Exception], the daemon ends with status 0, whether
    the streams ran dry or were cut short by an exception: once each
    coroutine has been resumed more often than its stream has items, both
    have returned and [main] returns normally. *)
Theorem finite_streams_exit_zero (w : world)
    (environ dotenv : gmap string string) (sched : list turn) (d : daemon) :
  __init__ w None None None "bsky-events" environ dotenv = Ok d ->
  login w (bsky_username d) (bsky_password d) = None ->
  no_abort (search_posts w) ->
  no_abort (notifications w) ->
  length (search_posts w) < turns Posts sched ->
  length (notifications w) < turns Notifs sched ->
  (main w environ dotenv sched).1 = Exited 0.
Proof.
  intros Hinit Hl Hap Han Hp Hn. unfold main. rewrite Hinit.
  pose proof (run_no_abort w d sched) as Hu. rewrite (run_ok _ _ _ _ Hl) in *.
  match goal with |- context [gather_with ?w ?a ?b ?s ?x ?y ?h] =>
    destruct (gather_with_total w a b s x y h) as (p & n & a' & Hg) end.
  rewrite Hg in *. rewrite (Hu p n _ Hap Han eq_refl). simpl.
  pose proof Hg as Hg'. apply gather_with_swap in Hg'.
  apply gather_first_finishes in Hg; [|by right].
  apply gather_first_finishes in Hg'; [|right; by rewrite (turns_swap Notifs)].
  by rewrite Hg, Hg'.
Qed.

Lemma finite_streams_exit_zero_witness :
  (main (calm scenario [Throw (Exn "ConnectionError" "closed")]) ∅ ∅
        [Posts; Notifs; Posts; Posts; Notifs; Posts; Posts]).1 = Exited 0.
Proof.
  apply (finite_streams_exit_zero
           (calm scenario [Throw (Exn "ConnectionError" "closed")]) ∅ ∅
           [Posts; Notifs; Posts; Posts; Notifs; Posts; Posts] bare_daemon).
  - reflexivity.
  - reflexivity.
  - repeat constructor; discriminate.
  - repeat constructor; discriminate.
  - simpl. lia.
  - simpl. lia.
Defined.

(** X7: each stream logs at most one ERROR record in a run.  After a
    successful login the number of ERROR records never exceeds the number
    of coroutines that have returned: at most two in all, and none while
    both loops are still running. *)
Theorem at_most_one_error_per_stream (w : world) (d : daemon) (sched : list turn)
    (p n : task) (t : list effect) :
  run w d sched [] = (Ok (p, n), t) ->
  length (errors t) <= ended p + ended n.
Proof.
  destruct (login w (bsky_username d) (bsky_password d)) as [e|] eqn:Hl.
  { by rewrite (run_fails _ _ _ _ _ Hl). }
  rewrite (run_ok _ _ _ _ Hl). apply gather_with_errors. simpl. lia.
Qed.

Lemma at_most_one_error_per_stream_witness :
  length (errors
    [Login None None;
     Log INFO "Successfully authenticated with Bluesky";
     Publish "new_post" data1;
     Log INFO "Published post from did:plc:alice";
     Publish "new_post" data2;
     Log INFO "Published post from did:plc:alice";
     Log ERROR "Error streaming posts: 'NoneType' object has no attribute 'did'"])
  <= ended (Task true [Yield post4]) + ended (Task false []).
Proof.
  apply (at_most_one_error_per_stream (calm scenario []) bare_daemon
           [Posts; Posts; Posts; Posts]).
  reflexivity.
Defined.

(** X8: a loop that has ended is never started again.  From any state in
    which the coroutine of a stream has returned, whatever its iterator
    still holds and whatever the schedule, [gather] leaves that coroutine
    as it is and makes no further [publish] call under its event name:
    there is no reconnection. *)
Theorem ended_loop_never_publishes_again (w : world) (x : turn) (sched : list turn)
    (p n : task) (h : list effect) :
  finished (task_of x (p, n)) = true ->
  exists p' n' h',
    gather w sched p n h = (Ok (p', n'), h')
    /\ task_of x (p', n') = task_of x (p, n)
    /\ calls (event_name (loop_of x)) h' = calls (event_name (loop_of x)) h.
Proof.
  intros Hf. rewrite gather_eq.
  destruct (gather_with_total w posts_loop notifications_loop sched p n h)
    as (p' & n' & a & Hg).
  exists p', n', (h ++ a). split; [done|].
  destruct x; simpl in *.
  - apply (gather_first_idle w posts_loop notifications_loop names_differ) in Hg
      as [Hc Hk]; [|by left].
    split; [by apply Hk|done].
  - apply gather_with_swap in Hg.
    apply (gather_first_idle w notifications_loop posts_loop) in Hg
      as [Hc Hk]; [|discriminate|by left].
    split; [by apply Hk|done].
Qed.

Lemma ended_loop_never_publishes_again_witness :
  exists p' n' h',
    gather (calm [] []) [Posts; Notifs; Posts] (Task true [Yield post4])
           (Task false [Yield notification1]) []
    = (Ok (p', n'), h')
    /\ task_of Posts (p', n')
       = task_of Posts (Task true [Yield post4], Task false [Yield notification1])
    /\ calls "new_post" h' = calls "new_post" [].
Proof.
  apply (ended_loop_never_publishes_again (calm [] []) Posts [Posts; Notifs; Posts]
           (Task true [Yield post4]) (Task false [Yield notification1]) []).
  reflexivity.
Defined.

(** X9: a [publish] that raises ends its stream, and is not tried again.
    With the login accepted and the channel accepting the events before
    it, once the loop has been resumed past the event whose [publish]
    raises: the calls made under the stream's name are the events before
    it and that one event, each once and in order; the loop has ended,
    leaving every later event in the iterator; and the ERROR record with
    the exception's text is in the log. *)
Theorem publish_failure_ends_its_stream (w : world) (d : daemon) (sched : list turn)
    (x : turn) (pre : list pyval) (ds : list dict) (v : pyval) (dv : dict)
    (rest : list item) (e : exn) :
  login w (bsky_username d) (bsky_password d) = None ->
  stream_of w x = map Yield pre ++ Yield v :: rest ->
  Forall2 (fun v data => reshape (loop_of x) v = Ok data) pre ds ->
  Forall (fun data => forall h, publish w h (event_name (loop_of x)) data = None) ds ->
  reshape (loop_of x) v = Ok dv ->
  (forall h, publish w h (event_name (loop_of x)) dv = Some e) ->
  length pre < turns x sched ->
  exists tasks t,
    run w d sched [] = (Ok tasks, t)
    /\ task_of x tasks = Task true rest
    /\ calls (event_name (loop_of x)) t = ds ++ [dv]
    /\ Log ERROR (error_prefix (loop_of x) +:+ exn_msg e) ∈ t.
Proof.
  intros Hl Hs Hpre Hacc Hv Hrej Hlen.
  destruct (run_stream_ends w d sched x pre ds (Yield v) rest
              [Publish (event_name (loop_of x)) dv;
               Log ERROR (error_prefix (loop_of x) +:+ exn_msg e)])
    as (tasks & t & Hrun & Ht & Hc & Hin); try done.
  { intros h. unfold loop_step. simpl. by rewrite Hv, Hrej. }
  exists tasks, t. split_and!; try done.
  - rewrite Hc. f_equal.
    change [Publish (event_name (loop_of x)) dv;
            Log ERROR (error_prefix (loop_of x) +:+ exn_msg e)]
      with ([Publish (event_name (loop_of x)) dv]
            ++ [Log ERROR (error_prefix (loop_of x) +:+ exn_msg e)]).
    by rewrite calls_app, calls_publish_same.
  - apply Hin. set_solver.
Qed.

Lemma publish_failure_ends_its_stream_witness :
  exists tasks t,
    run (refusing "2" [Yield post1; Yield post2; Yield post4] []) bare_daemon
        [Posts; Posts; Posts] [] = (Ok tasks, t)
    /\ task_of Posts tasks = Task true [Yield post4]
    /\ calls "new_post" t = [data1] ++ [data2]
    /\ Log ERROR ("Error streaming posts: "
                  +:+ exn_msg (Exn "AblyException" "payload rejected")) ∈ t.
Proof.
  apply (publish_failure_ends_its_stream
           (refusing "2" [Yield post1; Yield post2; Yield post4] []) bare_daemon
           [Posts; Posts; Posts] Posts [post1] [data1] post2 data2 [Yield post4]
           (Exn "AblyException" "payload rejected")).
  - reflexivity.
  - reflexivity.
  - repeat constructor.
  - repeat constructor.
  - reflexivity.
  - intros h. reflexivity.
  - simpl. lia.
Defined.

(** X10: an iterator that raises an [Exception] (other than the
    [StopAsyncIteration] that ends the iteration) ends its stream for
    good, and loses nothing of what came before.  With the login accepted
    and the channel accepting the events before the interruption, once the
    loop has been resumed past it: exactly the events before it have been
    published, in order; the loop has ended, leaving whatever the stream
    would still give in the iterator; and the ERROR record with the
    exception's text is in the log. *)
Theorem interruption_ends_its_stream (w : world) (d : daemon) (sched : list turn)
    (x : turn) (pre : list pyval) (ds : list dict) (rest : list item) (e : exn) :
  login w (bsky_username d) (bsky_password d) = None ->
  stream_of w x = map Yield pre ++ Throw e :: rest ->
  is_stop e = false ->
  Forall2 (fun v data => reshape (loop_of x) v = Ok data) pre ds ->
  Forall (fun data => forall h, publish w h (event_name (loop_of x)) data = None) ds ->
  length pre < turns x sched ->
  exists tasks t,
    run w d sched [] = (Ok tasks, t)
    /\ task_of x tasks = Task true rest
    /\ calls (event_name (loop_of x)) t = ds
    /\ Log ERROR (error_prefix (loop_of x) +:+ exn_msg e) ∈ t.
Proof.
  intros Hl Hs Hstop Hpre Hacc Hlen.
  destruct (run_stream_ends w d sched x pre ds (Throw e) rest
              [Log ERROR (error_prefix (loop_of x) +:+ exn_msg e)])
    as (tasks & t & Hrun & Ht & Hc & Hin); try done.
  { intros h. unfold loop_step. simpl. by rewrite Hstop. }
  exists tasks, t. split_and!; try done.
  - rewrite Hc. apply app_nil_r.
  - apply Hin. set_solver.
Qed.

Lemma interruption_ends_its_stream_witness :
  exists tasks t,
    run (calm [] [Yield notification1; Throw (Exn "ConnectionError" "closed");
                  Yield notification1])
        bare_daemon [Notifs; Posts; Notifs] [] = (Ok tasks, t)
    /\ task_of Notifs tasks = Task true [Yield notification1]
    /\ calls "notification" t = [notification_data1]
    /\ Log ERROR ("Error streaming notifications: "
                  +:+ exn_msg (Exn "ConnectionError" "closed")) ∈ t.
Proof.
  apply (interruption_ends_its_stream
           (calm [] [Yield notification1; Throw (Exn "ConnectionError" "closed");
                     Yield notification1])
           bare_daemon [Notifs; Posts; Notifs] Notifs [notification1] [notification_data1]
           [Yield notification1] (Exn "ConnectionError" "closed")).
  - reflexivity.
  - reflexivity.
  - reflexivity.
  - repeat constructor.
  - repeat constructor.
  - simpl. lia.
Defined.

(** X11: every [publish] call is followed at once by a log record about
    it.  In the trace of any run, the effect after a [publish] is a log
    record: either the INFO record "Published post from ..." (for a
    notification, "Published notification for ...") naming the very did
    that the published dict carries, or the ERROR record of that loop. *)
Theorem every_publish_is_logged (w : world) (d : daemon) (sched : list turn)
    (i : nat) (name : string) (data : dict) :
  (run w d sched []).2 !! i = Some (Publish name data) ->
  exists lv msg,
    (run w d sched []).2 !! S i = Some (Log lv msg)
    /\ record_of_publish w name data lv msg.
Proof.
  revert i name data. change (publish_then_log (record_of_publish w) (run w d sched []).2).
  destruct (login w (bsky_username d) (bsky_password d)) as [e|] eqn:Hl.
  { rewrite (run_fails _ _ _ _ _ Hl). by intros [|[|i]] name data. }
  rewrite (run_ok _ _ _ _ Hl).
  match goal with |- context [gather_with ?w ?a ?b ?s ?x ?y ?h] =>
    destruct (gather_with_total w a b s x y h) as (p & n & a' & Hg) end.
  rewrite Hg. simpl snd.
  apply (gather_with_publish_then_log w posts_loop notifications_loop (record_of_publish w))
    in Hg; [done| | |by intros [|[|i]] name data].
  - intros h t. apply loop_step_publish_then_log.
    + intros v x did Hv Hd. left. split; [done|]. left. split; [done|].
      exists did. split; [|done]. by apply (post_data_did v).
    + intros x e. left. split; [done|]. right. eauto.
  - intros h t. apply loop_step_publish_then_log.
    + intros v x did Hv Hd. right. split; [done|]. left. split; [done|].
      exists did. split; [|done]. by apply (notification_data_did v).
    + intros x e. right. split; [done|]. right. eauto.
Qed.

Lemma every_publish_is_logged_witness :
  exists lv msg,
    (run (calm scenario []) bare_daemon [Posts; Posts; Posts] []).2 !! 3
    = Some (Log lv msg)
    /\ record_of_publish (calm scenario []) "new_post" data1 lv msg.
Proof.
  apply (every_publish_is_logged (calm scenario []) bare_daemon [Posts; Posts; Posts] 2).
  reflexivity.
Defined.

Section Clean.

Variable w : world.

Lemma loop_step_clean L h t :
  accepts w (event_name L) -> reads_did L ->
  Forall (fun it => exists v d, it = Yield v /\ reshape L v = Ok d) (iterator t) ->
  errors (loop_step w L h t).2 = []
  /\ Forall (fun it => exists v d, it = Yield v /\ reshape L v = Ok d)
            (iterator (loop_step w L h t).1).
Proof.
  intros Hacc Hdid Hclean. unfold loop_step.
  destruct t as [[] its]; simpl in *; [done|].
  destruct its as [|it rest]; simpl; [done|].
  apply Forall_cons in Hclean as [(v & d & -> & Hv) Hrest].
  rewrite Hv, Hacc. destruct (Hdid v d Hv) as [did ->]. done.
Qed.

Lemma gather_with_clean L1 L2 sched t1 t2 h t1' t2' h' :
  accepts w (event_name L1) -> reads_did L1 ->
  accepts w (event_name L2) -> reads_did L2 ->
  Forall (fun it => exists v d, it = Yield v /\ reshape L1 v = Ok d) (iterator t1) ->
  Forall (fun it => exists v d, it = Yield v /\ reshape L2 v = Ok d) (iterator t2) ->
  gather_with w L1 L2 sched t1 t2 h = (Ok (t1', t2'), h') ->
  errors h' = errors h.
Proof.
  intros Ha1 Hd1 Ha2 Hd2. revert t1 t2 h.
  induction sched as [|[] sched IH]; intros t1 t2 h H1 H2.
  - simpl. unfold ret. by intros [= <- <- <-].
  - rewrite gather_with_Posts. intros Hg.
    destruct (loop_step_clean L1 h t1 Ha1 Hd1 H1) as [He Hc].
    apply IH in Hg; [|done..]. by rewrite Hg, errors_app, He, app_nil_r.
  - rewrite gather_with_Notifs. intros Hg.
    destruct (loop_step_clean L2 h t2 Ha2 Hd2 H2) as [He Hc].
    apply IH in Hg; [|done..]. by rewrite Hg, errors_app, He, app_nil_r.
Qed.

End Clean.

(** X12: a run in which nothing goes wrong logs no ERROR record, and the
    end of a stream is not an error.  With the login accepted, every event
    of both streams well formed and the channel accepting, the log of the
    run holds no ERROR record, whatever the schedule, also once the
    streams have run dry and the coroutines have returned. *)
Theorem clean_run_logs_no_error (w : world) (d : daemon) (sched : list turn)
    (posts notifs : list pyval) :
  login w (bsky_username d) (bsky_password d) = None ->
  accepts w "new_post" ->
  accepts w "notification" ->
  search_posts w = map Yield posts ->
  notifications w = map Yield notifs ->
  Forall (fun v => exists data, post_event_data v = Ok data) posts ->
  Forall (fun v => exists data, notification_event_data v = Ok data) notifs ->
  errors (run w d sched []).2 = [].
Proof.
  intros Hl Hap Han Hsp Hsn Hp Hn.
  rewrite (run_ok _ _ _ _ Hl).
  match goal with |- context [gather_with ?w ?a ?b ?s ?x ?y ?h] =>
    destruct (gather_with_total w a b s x y h) as (p & n & a' & Hg) end.
  rewrite Hg.
  apply gather_with_clean in Hg;
    [exact Hg|done|apply post_reads_did|done|apply notification_reads_did| |].
  - simpl. rewrite Hsp. apply Forall_fmap.
    eapply Forall_impl; [exact Hp|]. intros v [data Hv]. by exists v, data.
  - simpl. rewrite Hsn. apply Forall_fmap.
    eapply Forall_impl; [exact Hn|]. intros v [data Hv]. by exists v, data.
Qed.

Lemma clean_run_logs_no_error_witness :
  errors (run (calm [Yield post1; Yield post2] [Yield notification1]) bare_daemon
              [Posts; Notifs; Posts; Notifs; Posts] []).2 = [].
Proof.
  apply (clean_run_logs_no_error
           (calm [Yield post1; Yield post2] [Yield notification1]) bare_daemon
           [Posts; Notifs; Posts; Notifs; Posts] [post1; post2] [notification1]).
  - reflexivity.
  - intros h data. reflexivity.
  - intros h data. reflexivity.
  - reflexivity.
  - reflexivity.
  - repeat constructor; by eexists.
  - repeat constructor; by eexists.
Defined.

(** X13: every event is handed to the channel in the loop iteration that
    receives it.  With the login accepted and the channel accepting, once
    a loop has been resumed as often as its stream of well-formed events
    has events, every one of them has been published, in arrival order,
    whatever the other stream did in between. *)
Theorem every_event_is_published (w : world) (d : daemon) (sched : list turn)
    (x : turn) (evs : list pyval) (ds : list dict) :
  login w (bsky_username d) (bsky_password d) = None ->
  accepts w (event_name (loop_of x)) ->
  stream_of w x = map Yield evs ->
  Forall2 (fun v data => reshape (loop_of x) v = Ok data) evs ds ->
  length evs <= turns x sched ->
  calls (event_name (loop_of x)) (run w d sched []).2 = ds.
Proof.
  intros Hl Hacc Hs Hevs Hturns.
  rewrite (run_ok _ _ _ _ Hl).
  match goal with |- context [gather_with ?w ?a ?b ?s ?x ?y ?h] =>
    destruct (gather_with_total w a b s x y h) as (p & n & a' & Hg) end.
  rewrite Hg. simpl snd.
  destruct x; simpl in *.
  - rewrite Hs in Hg.
    by apply (gather_first_all w posts_loop notifications_loop names_differ)
      with (ds := ds) in Hg; [|done|apply post_reads_did|done|lia].
  - apply gather_with_swap in Hg. rewrite Hs in Hg.
    apply (gather_first_all w notifications_loop posts_loop)
      with (ds := ds) in Hg; [done|discriminate|done|apply notification_reads_did|done|].
    rewrite (turns_swap Notifs). lia.
Qed.

Lemma every_event_is_published_witness :
  calls "notification"
    (run (calm [Yield post1] [Yield notification1; Yield notification1]) bare_daemon
         [Notifs; Posts; Notifs] []).2
  = [notification_data1; notification_data1].
Proof.
  apply (every_event_is_published
           (calm [Yield post1] [Yield notification1; Yield notification1]) bare_daemon
           [Notifs; Posts; Notifs] Notifs [notification1; notification1]
           [notification_data1; notification_data1]).
  - reflexivity.
  - intros h data. reflexivity.
  - reflexivity.
  - repeat constructor.
  - simpl. lia.
Defined.
